(** * The box blur of [surface_blur] (src/cairo.cpp)

    [surface_blur] blurs the pixels of a cairo image surface in place: three
    iterations over the four byte channels, each made of a pass that fills a
    summed-area table ([precalc]) and a pass that rewrites the channel bytes of
    the inset pixels from that table.

    The embedding keeps the shape of the C++ code: the pixel data and the
    table are arrays reached through the offsets [pix] and [pre], every load
    and store is bounds checked (a fault is [None]), [int] and [unsigned]
    arithmetic wraps modulo 2^32 (the radius, too, is what the caller's
    number is as an [int]), and the floating-point part ([1.f / n], the
    widening to [double], the product [tot * mul] and the conversion to
    [unsigned char]) is computed with the IEEE 754 model of [SpecFloat]. *)

From Stdlib Require Import ZArith Lia List Bool.
From Stdlib Require Import Floats.SpecFloat.
From stdpp Require Import base option list.

Local Open Scope Z_scope.

(** ** Machine integers *)

Definition INT_MAX : Z := 2 ^ 31 - 1.

(** Conversion to [int] (32 bits, two's complement). *)
Definition to_int (z : Z) : Z := (z + 2 ^ 31) mod 2 ^ 32 - 2 ^ 31.

(** Conversion to [unsigned] (32 bits). *)
Definition to_unsigned (z : Z) : Z := z mod 2 ^ 32.

(** ** Floating point *)

(** [(float) n] and [(double) n] for an [int] [n], rounded to nearest even. *)
Definition float_of_int (n : Z) : spec_float := binary_normalize 24 128 n 0 false.
Definition double_of_int (n : Z) : spec_float := binary_normalize 53 1024 n 0 false.

(** Widening of a [float] to [double]: exact, only the mantissa is realigned. *)
Definition double_of_float (f : spec_float) : spec_float :=
  match f with
  | S754_finite s m e => binary_round 53 1024 s m e
  | _ => f
  end.

(** [double mul = 1.f / ((radius * 2) * (radius * 2))]: the products are
    [int] products, the quotient is a [float] quotient ([1.f] is a [float],
    the divisor is converted to [float]) and the result is widened. *)
Definition mul (radius : Z) : spec_float :=
  double_of_float
    (SFdiv 24 128 (SFone 24 128)
       (float_of_int (to_int (to_int (radius * 2) * to_int (radius * 2))))).

(** Integral part of a [double], rounded toward zero; [None] for an infinity
    or a NaN. *)
Definition trunc_double (d : spec_float) : option Z :=
  match d with
  | S754_zero _ => Some 0
  | S754_finite s m e =>
      Some (cond_Zopp s
              match e with
              | Zneg p => Z.shiftr (Zpos m) (Zpos p)
              | _ => Z.shiftl (Zpos m) e
              end)
  | _ => None
  end.

(** ** Memory *)

(** [src]: the bytes of the surface; [precalc]: the table of [unsigned];
    [pix] and [pre]: the two running pointers, as offsets into [src] (in
    bytes) and [precalc] (in cells). *)
Record state : Type := State {
  src : list Z;
  precalc : list Z;
  pix : Z;
  pre : Z
}.

Definition load (mem : list Z) (i : Z) : option Z :=
  if 0 <=? i then mem !! Z.to_nat i else None.

Definition store (mem : list Z) (i v : Z) : option (list Z) :=
  if (0 <=? i) && (i <? Z.of_nat (length mem))
  then Some (<[Z.to_nat i := v]> mem)
  else None.

(** [for (i = lo; i < lo + n; i++) body], the body changing neither [i] nor
    the bound. *)
Fixpoint for_range {S : Type} (lo : Z) (n : nat)
    (body : Z -> S -> option S) (s : S) : option S :=
  match n with
  | O => Some s
  | Datatypes.S k => s' ← body lo s; for_range (lo + 1) k body s'
  end.

Definition for_loop {S : Type} (lo hi : Z)
    (body : Z -> S -> option S) (s : S) : option S :=
  for_range lo (Z.to_nat (hi - lo)) body s.

(** ** The precomputation step *)

(** Body of the inner loop: [tot] is an [int], the cells are [unsigned], so
    each [+=] and [-=] is computed in [unsigned] and converted back. *)
Definition precompute_body (width x y : Z) (s : state) : option state :=
  p ← load (src s) (pix s);
  tot ← (if 0 <? x
         then v ← load (precalc s) (pre s + -1);
              Some (to_int (to_unsigned p + v))
         else Some p);
  tot ← (if 0 <? y
         then v ← load (precalc s) (pre s + - width);
              Some (to_int (to_unsigned tot + v))
         else Some tot);
  tot ← (if (0 <? x) && (0 <? y)
         then v ← load (precalc s) (pre s + (- width - 1));
              Some (to_int (to_unsigned tot - v))
         else Some tot);
  cells ← store (precalc s) (pre s) (to_unsigned tot);
  Some {| src := src s; precalc := cells; pix := pix s + 4; pre := pre s + 1 |}.

Definition precompute (width height channel : Z) (s : state) : option state :=
  for_loop 0 height
    (fun y s => for_loop 0 width (fun x s => precompute_body width x y s) s)
    {| src := src s; precalc := precalc s; pix := 0 + channel; pre := 0 |}.

(** The [int tot] of the blur step: the four cells are combined in
    [unsigned] and the result is converted to [int]. *)
Definition window_tot (cells : list Z) (width l t r b : Z) : option Z :=
  prb ← load cells (r + b * width);
  plt ← load cells (l + t * width);
  plb ← load cells (l + b * width);
  prt ← load cells (r + t * width);
  Some (to_int (to_unsigned (to_unsigned (to_unsigned (prb + plt) - plb) - prt))).

(** ** Quantities the statements are written with *)

(** The byte of channel [c] of the pixel [(x, y)]. *)
Definition byte_at (width : Z) (d : list Z) (c x y : Z) : Z :=
  default 0 (d !! Z.to_nat (4 * (y * width + x) + c)).

(** Sum of [f 0 .. f (n - 1)], and of [f lo .. f hi] (both ends included). *)
Fixpoint sum_upto (f : Z -> Z) (n : nat) : Z :=
  match n with
  | O => 0
  | Datatypes.S k => sum_upto f k + f (Z.of_nat k)
  end.

Definition sum_between (f : Z -> Z) (lo hi : Z) : Z :=
  sum_upto (fun i => f (lo + i)) (Z.to_nat (hi + 1 - lo)).

(** Sum of the plane [v] over the pixels of [x0..x1] x [y0..y1]. *)
Definition rect_sum (v : Z -> Z -> Z) (x0 x1 y0 y1 : Z) : Z :=
  sum_between (fun y => sum_between (fun x => v x y) x0 x1) y0 y1.

(** The inclusive two-dimensional prefix sum, over the integers. *)
Definition prefix_sum (v : Z -> Z -> Z) (x y : Z) : Z := rect_sum v 0 x 0 y.

(** The four-term combination of prefix sums at the clamped corners. *)
Definition window_total (v : Z -> Z -> Z) (width height er x y : Z) : Z :=
  let l := Z.max 0 (x - er) in
  let t := Z.max 0 (y - er) in
  let r := Z.min (width - 1) (x + er) in
  let b := Z.min (height - 1) (y + er) in
  prefix_sum v r b + prefix_sum v l t - prefix_sum v l b - prefix_sum v r t.

Definition in_inset (width height er x y : Z) : bool :=
  (er <=? x) && (x <? width - er) && (er <=? y) && (y <? height - er).

(** A surface of [width] x [height] pixels of four bytes, rows contiguous,
    small enough for the [int] arithmetic of the offsets: the largest product
    the loops form is [radius * width * 4] with [2 * radius < height]. (Every
    surface of at most 32767 x 32767 pixels qualifies.) *)
Record well_formed (width height : Z) (d : list Z) : Prop := {
  wf_width : 0 < width;
  wf_height : 0 < height;
  wf_size : 2 * width * height <= INT_MAX;
  wf_length : Z.of_nat (length d) = width * 4 * height;
  wf_bytes : Forall (fun b => 0 <= b < 256) d
}.

(** The first [k] cells of the table, in row-major order, hold the prefix
    sums of the plane [v] modulo 2^32. *)
Definition table_upto (width : Z) (v : Z -> Z -> Z) (cells : list Z) (k : Z) : Prop :=
  forall x y, 0 <= x < width -> 0 <= y -> y * width + x < k ->
    cells !! Z.to_nat (y * width + x) = Some (to_unsigned (prefix_sum v x y)).

(** What the precomputation loops keep true: [k] cells have been filled, the
    bytes are those of [d], and the two pointers are [k] steps on. *)
Record precompute_inv (width height c : Z) (d : list Z) (k : Z) (s : state) : Prop := {
  pi_src : src s = d;
  pi_pix : pix s = 0 + c + 4 * k;
  pi_pre : pre s = k;
  pi_cells : Z.of_nat (length (precalc s)) = width * height;
  pi_table : table_upto width (byte_at width d c) (precalc s) k
}.

(** [well_formed], as a test. *)
Definition well_formedb (width height : Z) (d : list Z) : bool :=
  (0 <? width) && (0 <? height) && (2 * width * height <=? INT_MAX)
  && (Z.of_nat (length d) =? width * 4 * height)
  && forallb (fun b => (0 <=? b) && (b <? 256)) d.

(** The truncated mean over the integers: the window total [T] divided by
    the window area [(2 er)^2], the quotient cut to a byte. *)
Definition exact_average (er T : Z) : Z := (T ÷ (2 * er) ^ 2) mod 256.

(** [f] holds at [lo], [lo + 1], .., [lo + n - 1]. *)
Fixpoint all_between (f : Z -> bool) (lo : Z) (n : nat) : bool :=
  match n with
  | O => true
  | Datatypes.S k => f lo && all_between f (lo + 1) k
  end.

Definition is_finite (f : spec_float) : bool :=
  match f with
  | S754_finite _ _ _ => true
  | _ => false
  end.

(** Two buffers hold the same bytes in channel [c]. *)
Definition same_channel (width height c : Z) (d1 d2 : list Z) : Prop :=
  forall x y, 0 <= x < width -> 0 <= y < height ->
    byte_at width d1 c x y = byte_at width d2 c x y.


(** ** Sample inputs *)

(** What compilers for x86-64 store: [cvttsd2si] converts the [double] to a
    32-bit integer, 0x80000000 when it does not fit or is a NaN, and the low
    byte of that integer is kept. *)
Definition cvttsd2si (d : spec_float) : Z :=
  match trunc_double d with
  | Some t => if (- 2 ^ 31 <=? t) && (t <? 2 ^ 31) then t else - 2 ^ 31
  | None => - 2 ^ 31
  end.

(** A 5 x 5 surface with the bytes 0, 1, .., 99. *)
Definition ramp : list Z := map Z.of_nat (seq 0 100).

(** An 11 x 11 surface with every byte equal to [v]. *)
Definition uniform (v : Z) : list Z := repeat v 484.

(** The 5 x 5 surface [ramp] with the alpha bytes (channel 3) set to 0, and
    with every byte but those of channel 0 set to 0. *)
Definition ramp_transparent : list Z :=
  map (fun i => if Z.of_nat i mod 4 =? 3 then 0 else Z.of_nat i) (seq 0 100).

Definition ramp_channel0 : list Z :=
  map (fun i => if Z.of_nat i mod 4 =? 0 then Z.of_nat i else 0) (seq 0 100).

(** A surface of 2 x 2 pixels with rows of 8 bytes: an opaque pixel, a half
    transparent one, a fully transparent one and a faint one. *)
Definition four_pixels : list Z := [4279246896; 2151686160; 0; 16843009].

(** The state in which a channel pass finds the memory: the bytes of the
    surface and a table with whatever is in it. *)
Definition start (d : list Z) (cells : nat) : state :=
  {| src := d; precalc := repeat 0 cells; pix := 0; pre := 0 |}.

Section Blur.

(** The conversion of a [double] to [unsigned char] is defined when the
    truncated value is in 0..255. Otherwise the language leaves it open and
    the stored byte depends on the target: [unrepresentable] stands for it. *)
Variable unrepresentable : spec_float -> Z.

Definition uchar_of_double (d : spec_float) : Z :=
  match trunc_double d with
  | Some t => if (0 <=? t) && (t <=? 255) then t else unrepresentable d mod 256
  | None => unrepresentable d mod 256
  end.

(** ** The blur step *)

Definition blur_body (width height radius : Z) (mul : spec_float)
    (x y : Z) (s : state) : option state :=
  let l := if x <? radius then 0 else x - radius in
  let t := if y <? radius then 0 else y - radius in
  let r := if width <=? x + radius then width - 1 else x + radius in
  let b := if height <=? y + radius then height - 1 else y + radius in
  tot ← window_tot (precalc s) width l t r b;
  bytes ← store (src s) (pix s)
            (uchar_of_double (SFmul 53 1024 (double_of_int tot) mul));
  Some {| src := bytes; precalc := precalc s; pix := pix s + 4; pre := pre s |}.

Definition blur_step (width height radius channel : Z) (mul : spec_float)
    (s : state) : option state :=
  for_loop radius (height - radius)
    (fun y s =>
       s ← for_loop radius (width - radius)
             (fun x s => blur_body width height radius mul x y s) s;
       Some {| src := src s; precalc := precalc s;
               pix := pix s + to_int (to_int (radius * 2) * 4);
               pre := pre s |})
    {| src := src s; precalc := precalc s;
       pix := to_int (to_int (radius * width) * 4) + to_int (radius * 4) + channel;
       pre := pre s |}.

(** One channel of one iteration. *)
Definition blur_channel (width height radius : Z) (mul : spec_float)
    (channel : Z) (s : state) : option state :=
  s ← precompute width height channel s;
  blur_step width height radius channel mul s.

Definition MAX_ITERATIONS : Z := 3.

(** [radius] is the 64-bit integer that [args[1]->IntegerValue ()] returns:
    the initialisation of [int radius] keeps its low 32 bits, and [--radius]
    is an [int] subtraction. [garbage] gives the contents of the block that
    [malloc] returns, which are indeterminate. A negative [int] product asks
    for no cell at all. *)
Definition surface_blur (garbage : nat -> Z) (width height : Z)
    (data : list Z) (radius : Z) : option (list Z) :=
  let radius := to_int radius in
  let radius := to_int (radius - 1) in
  let cells :=
    map (fun i => to_unsigned (garbage i))
        (seq 0 (Z.to_nat (to_int (width * height)))) in
  let mul := mul radius in
  s ← for_loop 0 MAX_ITERATIONS
        (fun iteration s =>
           for_loop 0 4
             (fun channel s => blur_channel width height radius mul channel s) s)
        {| src := data; precalc := cells; pix := 0; pre := 0 |};
  Some (src s).

(** ** The accesses to the surface *)

(** The same code, keeping a record of the reads and writes of surface bytes
    in the order in which they are made: [Read i v] is a [*pix] that gives
    [v] with [pix] at the byte [i] (the one read of the precomputation
    body), [Write i v] is [*pix = v] (the one store of the blur body). *)
Inductive access : Type :=
  | Read (i v : Z)
  | Write (i v : Z).

Definition byte_of (d : list Z) (i : Z) : Z := default 0 (d !! Z.to_nat i).

Definition logged {S : Type} (step : S -> option S)
    (what : S -> S -> list access) (st : S * list access)
    : option (S * list access) :=
  s' ← step st.1; Some (s', st.2 ++ what st.1 s').

Definition precompute_log (width height channel : Z)
    (st : state * list access) : option (state * list access) :=
  for_loop 0 height
    (fun y st =>
       for_loop 0 width
         (fun x st =>
            logged (precompute_body width x y)
              (fun s _ => [Read (pix s) (byte_of (src s) (pix s))]) st) st)
    ({| src := src st.1; precalc := precalc st.1; pix := 0 + channel; pre := 0 |},
     st.2).

Definition blur_step_log (width height radius channel : Z) (mul : spec_float)
    (st : state * list access) : option (state * list access) :=
  for_loop radius (height - radius)
    (fun y st =>
       st ← for_loop radius (width - radius)
              (fun x st =>
                 logged (blur_body width height radius mul x y)
                   (fun s s' => [Write (pix s) (byte_of (src s') (pix s))]) st) st;
       Some ({| src := src st.1; precalc := precalc st.1;
                pix := pix st.1 + to_int (to_int (radius * 2) * 4);
                pre := pre st.1 |}, st.2))
    ({| src := src st.1; precalc := precalc st.1;
        pix := to_int (to_int (radius * width) * 4) + to_int (radius * 4) + channel;
        pre := pre st.1 |}, st.2).

Definition blur_channel_log (width height radius : Z) (mul : spec_float)
    (channel : Z) (st : state * list access) : option (state * list access) :=
  st ← precompute_log width height channel st;
  blur_step_log width height radius channel mul st.

Definition surface_blur_log (garbage : nat -> Z) (width height : Z)
    (data : list Z) (radius : Z) : option (list Z * list access) :=
  let radius := to_int radius in
  let radius := to_int (radius - 1) in
  let cells :=
    map (fun i => to_unsigned (garbage i))
        (seq 0 (Z.to_nat (to_int (width * height)))) in
  let mul := mul radius in
  st ← for_loop 0 MAX_ITERATIONS
         (fun iteration st =>
            for_loop 0 4
              (fun channel st =>
                 blur_channel_log width height radius mul channel st) st)
         ({| src := data; precalc := cells; pix := 0; pre := 0 |}, []);
  Some (src st.1, st.2).

(** ** One channel pass as a function on the bytes *)

(** What the blur step stores for a window whose four-term total is [T]. *)
Definition average (radius T : Z) : Z :=
  uchar_of_double (SFmul 53 1024 (double_of_int (to_int T)) (mul radius)).

(** [(x, y)] comes before [(x0, y0)] in row-major order. *)
Definition done_before (x0 y0 x y : Z) : bool :=
  (y <? y0) || ((y =? y0) && (x <? x0)).

(** The bytes after one channel pass with effective radius [er]: the bytes
    of channel [c] at the inset pixels are replaced by the average of their
    window, every other byte is kept. [box_pass_upto] stops the pass at the
    pixel [(x0, y0)]. *)
Definition box_byte (width height er c x0 y0 : Z) (d : list Z)
    (i : nat) (old : Z) : Z :=
  let k := Z.of_nat i in
  let x := (k / 4) mod width in
  let y := (k / 4) / width in
  if (k mod 4 =? c) && in_inset width height er x y && done_before x0 y0 x y
  then average er (window_total (byte_at width d c) width height er x y)
  else old.

Definition box_pass_upto (width height er c x0 y0 : Z) (d : list Z) : list Z :=
  imap (box_byte width height er c x0 y0 d) d.

Definition box_pass (width height er c : Z) (d : list Z) : list Z :=
  box_pass_upto width height er c 0 height d.

(** The whole call: three times the channels 0, 1, 2, 3. *)
Definition box_iteration (width height er : Z) (d : list Z) : list Z :=
  foldl (fun d c => box_pass width height er c d) d [0; 1; 2; 3].

Definition box_blur (width height er : Z) (d : list Z) : list Z :=
  box_iteration width height er
    (box_iteration width height er (box_iteration width height er d)).

(** The accesses of one channel pass on the bytes [d]: the precomputation
    reads the byte of channel [c] of every pixel, row by row; then the blur
    step writes the byte of channel [c] of every inset pixel, row by row. *)
Definition reads (width height c : Z) (d : list Z) : list access :=
  flat_map
    (fun y =>
       map (fun x => Read (4 * (y * width + x) + c)
                          (byte_of d (4 * (y * width + x) + c)))
           (seqZ 0 width))
    (seqZ 0 height).

Definition writes (width height er c : Z) (d : list Z) : list access :=
  flat_map
    (fun y =>
       map (fun x => Write (4 * (y * width + x) + c)
                           (average er (window_total (byte_at width d c)
                                          width height er x y)))
           (seqZ er (width - er - er)))
    (seqZ er (height - er - er)).

(** The accesses of the passes of the channels [cs], one pass after the
    other, each on the bytes that the passes before it have left. *)
Fixpoint accesses (width height er : Z) (cs : list Z) (d : list Z) : list access :=
  match cs with
  | [] => []
  | c :: cs =>
      (reads width height c d ++ writes width height er c d)
      ++ accesses width height er cs (box_pass width height er c d)
  end.

(** What the blur loops keep true when they reach the pixel [(x, y)]: the
    pixels before it have been rewritten, the table is untouched and [pix]
    points at the byte of [(x, y)]. *)
Record blur_inv (width height er c : Z) (d cells : list Z) (x y : Z)
    (s : state) : Prop := {
  bi_src : src s = box_pass_upto width height er c x y d;
  bi_cells : precalc s = cells;
  bi_pix : pix s = 4 * (y * width + x) + c
}.



(** ** [image_surface_get_data] *)

(** The routine reads the pixels as [uint32_t]: the surface is taken here as
    its array of 32-bit words, [stride / 4] words a row, addressed by byte
    offset; a read that is misaligned or outside the array is a fault. *)
Definition load32 (words : list Z) (off : Z) : option Z :=
  if (0 <=? off) && (off mod 4 =? 0) then words !! Z.to_nat (off / 4) else None.

(** Conversion to [uint8_t]. *)
Definition uint8 (z : Z) : Z := z mod 256.

(** [(int) f] for a [float]: the integral part when it is an [int],
    otherwise what the target yields. *)
Definition int_of_float (f : spec_float) : Z :=
  match trunc_double f with
  | Some t =>
      if (- 2 ^ 31 <=? t) && (t <=? INT_MAX) then t else to_int (unrepresentable f)
  | None => to_int (unrepresentable f)
  end.

(** A JavaScript array of numbers, [None] being a hole. [Array::New (n)]
    has [n] holes (none for a negative [n]); [Set] past the end extends the
    array. *)
Definition array_new (n : Z) : list (option Z) := replicate (Z.to_nat n) None.

Definition array_set (a : list (option Z)) (i v : Z) : list (option Z) :=
  if (Z.to_nat i <? length a)%nat
  then <[Z.to_nat i := Some v]> a
  else a ++ replicate (Z.to_nat i - length a) None ++ [Some v].

(** [float alpha = (float) a / 255] and [(int) ((float) c / alpha)]. *)
Definition alpha_of (a : Z) : spec_float :=
  SFdiv 24 128 (float_of_int a) (float_of_int 255).

Definition unpremultiply (c : Z) (alpha : spec_float) : Z :=
  int_of_float (SFdiv 24 128 (float_of_int c) alpha).

(** Body of the inner loop: one pixel, four entries. *)
Definition get_data_pixel (words : list Z) (row sx x : Z)
    (st : list (option Z) * Z) : option (list (option Z) * Z) :=
  pixel ← load32 words (row + 4 * x + 4 * sx);
  let a := uint8 (Z.shiftr pixel 24) in
  let r := uint8 (Z.shiftr pixel 16) in
  let g := uint8 (Z.shiftr pixel 8) in
  let b := uint8 pixel in
  let alpha := alpha_of a in
  let bytes := st.1 in
  let ndx := st.2 in
  let bytes := array_set bytes ndx (unpremultiply r alpha) in
  let bytes := array_set bytes (ndx + 1) (unpremultiply g alpha) in
  let bytes := array_set bytes (ndx + 2) (unpremultiply b alpha) in
  let bytes := array_set bytes (ndx + 3) a in
  Some (bytes, ndx + 4).

(** The object that is returned. *)
Record image_data : Type := ImageData {
  im_data : list (option Z);
  im_width : Z;
  im_height : Z
}.

Definition image_surface_get_data (words : list Z) (stride cWidth cHeight : Z)
    (sx sy width height : Z) : option image_data :=
  let length := to_int (width * height) in
  let width := if sx <? 0 then to_int (width + sx) else width in
  let sx := if sx <? 0 then 0 else sx in
  let height := if sy <? 0 then to_int (height + sy) else height in
  let sy := if sy <? 0 then 0 else sy in
  let width := if cWidth <? to_int (sx + width) then to_int (cWidth - sx) else width in
  let height := if cHeight <? to_int (sy + height) then to_int (cHeight - sy) else height in
  let bytes := array_new (to_int (length * 4)) in
  st ← for_loop 0 height
         (fun y st =>
            let row := to_int (stride * to_int (y + sy)) in
            for_loop 0 width (fun x st => get_data_pixel words row sx x st) st)
         (bytes, 0);
  Some {| im_data := st.1; im_width := width; im_height := height |}.

(** The pixel [(x, y)] of the surface, and the entry [k] (0: red, 1: green,
    2: blue, 3: alpha) of the four that the routine makes of a pixel. *)
Definition pixel_at (words : list Z) (stride x y : Z) : Z :=
  default 0 (words !! Z.to_nat (stride / 4 * y + x)).

Definition pixel_entry (pixel k : Z) : Z :=
  let a := uint8 (Z.shiftr pixel 24) in
  if k =? 3 then a
  else unpremultiply (uint8 (Z.shiftr pixel (16 - 8 * k))) (alpha_of a).

(** The rectangle that is returned: the request cut to the surface. *)
Definition clip_extent (s n c : Z) : Z := Z.min (s + n) c - Z.max s 0.

(** The entry [j] of the array for the rectangle of width [W] whose first
    pixel is [(x0, y0)]. *)
Definition data_entry (words : list Z) (stride x0 y0 W : Z) (j : nat) : Z :=
  let i := Z.of_nat j in
  pixel_entry (pixel_at words stride (x0 + (i / 4) mod W) (y0 + (i / 4) / W))
    (i mod 4).

(** A surface of [cWidth] x [cHeight] pixels whose rows are [stride] bytes
    apart, [stride] a multiple of 4 that covers a row; the stride, the
    height and the size in bytes are [int]s. *)
Record surface_ok (words : list Z) (stride cWidth cHeight : Z) : Prop := {
  so_width : 0 <= cWidth;
  so_height : 0 <= cHeight;
  so_aligned : stride mod 4 = 0;
  so_stride : 4 * cWidth <= stride;
  so_size : stride * cHeight <= INT_MAX;
  so_ints : stride <= INT_MAX /\ cHeight <= INT_MAX;
  so_length : Z.of_nat (length words) = stride / 4 * cHeight
}.

(** A request whose coordinates and sizes leave room for the sums the
    routine forms in [int]. *)
Definition request_ok (sx sy width height : Z) : Prop :=
  - 2 ^ 30 <= sx < 2 ^ 30 /\ - 2 ^ 30 <= sy < 2 ^ 30
  /\ - 2 ^ 30 <= width < 2 ^ 30 /\ - 2 ^ 30 <= height < 2 ^ 30.

(** What the loops of [image_surface_get_data] keep true: [n] entries have
    been set, in order, and the rest of the array is as it was made. *)
Record get_data_inv (entry : nat -> Z) (a0 : list (option Z)) (n : Z)
    (st : list (option Z) * Z) : Prop := {
  gi_ndx : st.2 = n;
  gi_set : forall j, (j < Z.to_nat n)%nat -> st.1 !! j = Some (Some (entry j));
  gi_rest : forall j, (Z.to_nat n <= j)%nat -> st.1 !! j = a0 !! j
}.

(** * Proofs *)

(** ** Wrap-around *)

Lemma to_int_small z : - 2 ^ 31 <= z <= INT_MAX -> to_int z = z.
Proof.
  unfold to_int, INT_MAX. intros H.
  rewrite Z.mod_small by lia. lia.
Qed.

Lemma to_int_range z : - 2 ^ 31 <= to_int z <= INT_MAX.
Proof.
  unfold to_int, INT_MAX.
  pose proof (Z.mod_pos_bound (z + 2 ^ 31) (2 ^ 32) ltac:(lia)). lia.
Qed.

Lemma to_int_to_unsigned z : to_int (to_unsigned z) = to_int z.
Proof.
  unfold to_int, to_unsigned. f_equal.
  apply Zplus_mod_idemp_l.
Qed.

Lemma to_int_congr a b : to_unsigned a = to_unsigned b -> to_int a = to_int b.
Proof.
  intros H. rewrite <- (to_int_to_unsigned a), <- (to_int_to_unsigned b).
  f_equal. assumption.
Qed.

(** Equations between [unsigned] values: the conversions inside a sum or a
    difference can be dropped, what is left is an equation over the
    integers. *)
#[local] Existing Instances eqm_setoid Zplus_eqm Zminus_eqm.

Ltac wrap :=
  unfold to_unsigned, to_int;
  match goal with
  | |- ?a mod ?m = ?b mod ?m => change (eqm m a b)
  end;
  repeat (setoid_rewrite (Zmod_eqm (2 ^ 32)));
  match goal with
  | |- eqm ?m ?a ?b => replace a with b by lia; reflexivity
  end.

(** ** Loads, stores and loops *)

Lemma load_Some (mem : list Z) i v :
  0 <= i -> mem !! Z.to_nat i = Some v -> load mem i = Some v.
Proof.
  intros Hi Hv. unfold load.
  destruct (Z.leb_spec 0 i); [assumption | lia].
Qed.

Lemma store_Some (mem : list Z) i v :
  0 <= i < Z.of_nat (length mem) ->
  store mem i v = Some (<[Z.to_nat i := v]> mem).
Proof.
  intros Hi. unfold store.
  destruct (Z.leb_spec 0 i); [| lia].
  destruct (Z.ltb_spec i (Z.of_nat (length mem))); [reflexivity | lia].
Qed.

(** The rule of the counted loop: an invariant kept by every round holds at
    the end, and the loop does not fault. *)
Lemma for_range_inv {S : Type} (I : Z -> S -> Prop) (body : Z -> S -> option S) n :
  forall lo s,
    I lo s ->
    (forall i s, lo <= i < lo + Z.of_nat n -> I i s ->
       exists s', body i s = Some s' /\ I (i + 1) s') ->
    exists s', for_range lo n body s = Some s' /\ I (lo + Z.of_nat n) s'.
Proof.
  induction n as [| n IH]; intros lo s Hs Hstep; simpl.
  - exists s. split; [reflexivity |].
    replace (lo + Z.of_nat 0) with lo by lia. assumption.
  - destruct (Hstep lo s) as (s1 & Hb & H1); [lia | assumption |].
    rewrite Hb. simpl.
    destruct (IH (lo + 1) s1 H1) as (s2 & Hr & H2).
    + intros i s0 Hi. apply Hstep. lia.
    + exists s2. split; [assumption |].
      replace (lo + Z.of_nat (Datatypes.S n)) with (lo + 1 + Z.of_nat n) by lia.
      assumption.
Qed.

Lemma for_loop_inv {S : Type} (I : Z -> S -> Prop) (body : Z -> S -> option S) lo hi s :
  lo <= hi ->
  I lo s ->
  (forall i s, lo <= i < hi -> I i s ->
     exists s', body i s = Some s' /\ I (i + 1) s') ->
  exists s', for_loop lo hi body s = Some s' /\ I hi s'.
Proof.
  intros Hle Hs Hstep. unfold for_loop.
  destruct (for_range_inv I body (Z.to_nat (hi - lo)) lo s Hs) as (s' & Hr & H').
  - intros i s0 Hi. apply Hstep. lia.
  - exists s'. split; [assumption |].
    replace hi with (lo + Z.of_nat (Z.to_nat (hi - lo))) by lia. assumption.
Qed.

Lemma for_loop_empty {S : Type} (body : Z -> S -> option S) lo hi s :
  hi <= lo -> for_loop lo hi body s = Some s.
Proof.
  intros H. unfold for_loop.
  replace (Z.to_nat (hi - lo)) with O by lia. reflexivity.
Qed.

Lemma for_loop_step {S : Type} (body : Z -> S -> option S) lo hi s :
  lo < hi ->
  for_loop lo hi body s = (s' ← body lo s; for_loop (lo + 1) hi body s').
Proof.
  intros H. unfold for_loop.
  replace (Z.to_nat (hi - lo)) with (Datatypes.S (Z.to_nat (hi - (lo + 1)))) by lia.
  reflexivity.
Qed.

(** ** Sums *)

Lemma sum_upto_ext f g n :
  (forall i, 0 <= i < Z.of_nat n -> f i = g i) -> sum_upto f n = sum_upto g n.
Proof.
  induction n as [| n IH]; intros H; simpl; [reflexivity |].
  rewrite IH, H by (try intros; try apply H; lia). reflexivity.
Qed.

Lemma sum_upto_add f g n :
  sum_upto (fun i => f i + g i) n = sum_upto f n + sum_upto g n.
Proof. induction n as [| n IH]; simpl; lia. Qed.

Lemma sum_upto_app f n m :
  sum_upto f (n + m) = sum_upto f n + sum_upto (fun i => f (Z.of_nat n + i)) m.
Proof.
  induction m as [| m IH]; simpl.
  - rewrite Nat.add_0_r. lia.
  - rewrite Nat.add_succ_r. simpl. rewrite IH.
    replace (Z.of_nat (n + m)) with (Z.of_nat n + Z.of_nat m) by lia. lia.
Qed.

Lemma sum_between_empty f lo hi : hi < lo -> sum_between f lo hi = 0.
Proof.
  intros H. unfold sum_between.
  replace (Z.to_nat (hi + 1 - lo)) with O by lia. reflexivity.
Qed.

Lemma sum_between_last f lo hi :
  lo <= hi -> sum_between f lo hi = sum_between f lo (hi - 1) + f hi.
Proof.
  intros H. unfold sum_between.
  replace (Z.to_nat (hi + 1 - lo)) with (Datatypes.S (Z.to_nat (hi - 1 + 1 - lo))) by lia.
  simpl. do 2 f_equal. lia.
Qed.

Lemma sum_between_split f lo m hi :
  lo - 1 <= m <= hi ->
  sum_between f lo hi = sum_between f lo m + sum_between f (m + 1) hi.
Proof.
  intros H. unfold sum_between.
  replace (Z.to_nat (hi + 1 - lo))
    with (Z.to_nat (m + 1 - lo) + Z.to_nat (hi + 1 - (m + 1)))%nat by lia.
  rewrite sum_upto_app. f_equal.
  apply sum_upto_ext. intros i Hi. f_equal. lia.
Qed.

Lemma sum_between_ext f g lo hi :
  (forall i, lo <= i <= hi -> f i = g i) -> sum_between f lo hi = sum_between g lo hi.
Proof.
  intros H. unfold sum_between. apply sum_upto_ext.
  intros i Hi. apply H. lia.
Qed.

Lemma sum_between_add f g lo hi :
  sum_between (fun i => f i + g i) lo hi = sum_between f lo hi + sum_between g lo hi.
Proof. unfold sum_between. apply sum_upto_add. Qed.

Lemma rect_sum_split_x v x0 m x1 y0 y1 :
  x0 - 1 <= m <= x1 ->
  rect_sum v x0 x1 y0 y1 = rect_sum v x0 m y0 y1 + rect_sum v (m + 1) x1 y0 y1.
Proof.
  intros H. unfold rect_sum. rewrite <- sum_between_add.
  apply sum_between_ext. intros y _. apply sum_between_split. assumption.
Qed.

Lemma rect_sum_split_y v x0 x1 y0 m y1 :
  y0 - 1 <= m <= y1 ->
  rect_sum v x0 x1 y0 y1 = rect_sum v x0 x1 y0 m + rect_sum v x0 x1 (m + 1) y1.
Proof. intros H. unfold rect_sum. apply sum_between_split. assumption. Qed.

Lemma rect_sum_single v x y : rect_sum v x x y y = v x y.
Proof.
  unfold rect_sum.
  rewrite (sum_between_last _ y y), sum_between_empty by lia.
  rewrite (sum_between_last _ x x), sum_between_empty by lia. lia.
Qed.

(** The four-term combination of prefix sums is the sum over the rectangle
    that starts one pixel after [(l, t)] and ends at [(r, b)]. *)
Lemma prefix_sum_window v l t r b :
  -1 <= l <= r -> -1 <= t <= b ->
  prefix_sum v r b + prefix_sum v l t - prefix_sum v l b - prefix_sum v r t
  = rect_sum v (l + 1) r (t + 1) b.
Proof.
  intros Hx Hy. unfold prefix_sum.
  rewrite (rect_sum_split_x v 0 l r 0 b) by lia.
  rewrite (rect_sum_split_y v (l + 1) r 0 t b) by lia.
  rewrite (rect_sum_split_x v 0 l r 0 t) by lia.
  lia.
Qed.

(** The inclusion-exclusion recurrence of the table. *)
Lemma prefix_sum_rec v x y :
  0 <= x -> 0 <= y ->
  prefix_sum v x y
  = v x y
    + (if 0 <? x then prefix_sum v (x - 1) y else 0)
    + (if 0 <? y then prefix_sum v x (y - 1) else 0)
    - (if (0 <? x) && (0 <? y) then prefix_sum v (x - 1) (y - 1) else 0).
Proof.
  intros Hx Hy.
  pose proof (prefix_sum_window v (x - 1) (y - 1) x y ltac:(lia) ltac:(lia)) as Hw.
  replace (x - 1 + 1) with x in Hw by lia.
  replace (y - 1 + 1) with y in Hw by lia.
  rewrite rect_sum_single in Hw.
  assert (Hx0 : forall j, prefix_sum v (-1) j = 0).
  { intros j. unfold prefix_sum, rect_sum.
    rewrite <- (sum_between_ext (fun _ => 0)).
    - unfold sum_between. induction (Z.to_nat (j + 1 - 0)); simpl; lia.
    - intros i _. symmetry. apply sum_between_empty. lia. }
  assert (Hy0 : forall i, prefix_sum v i (-1) = 0).
  { intros i. unfold prefix_sum, rect_sum. apply sum_between_empty. lia. }
  destruct (Z.ltb_spec 0 x), (Z.ltb_spec 0 y); simpl.
  - lia.
  - assert (y = 0) by lia. subst y. simpl in Hw. rewrite !Hy0 in Hw. lia.
  - assert (x = 0) by lia. subst x. simpl in Hw. rewrite !Hx0 in Hw. lia.
  - assert (x = 0) by lia. assert (y = 0) by lia. subst x y.
    simpl in Hw. rewrite !Hx0, ?Hy0 in Hw. lia.
Qed.

(** ** The precomputation step fills the table *)

Lemma cell_index_inj width x y x' y' :
  0 <= x < width -> 0 <= x' < width ->
  y * width + x = y' * width + x' -> x = x' /\ y = y'.
Proof.
  intros Hx Hx' H.
  assert (y = y') by nia. subst y'. lia.
Qed.

Lemma cell_index_bound width height x y :
  0 <= x < width -> 0 <= y < height -> 0 <= y * width + x < width * height.
Proof. intros Hx Hy. nia. Qed.

Lemma lookup_byte_at width (d : list Z) c x y :
  0 <= 4 * (y * width + x) + c < Z.of_nat (length d) ->
  d !! Z.to_nat (4 * (y * width + x) + c) = Some (byte_at width d c x y).
Proof.
  intros H. unfold byte_at.
  destruct (lookup_lt_is_Some_2 d (Z.to_nat (4 * (y * width + x) + c))) as [b Hb];
    [lia |].
  rewrite Hb. reflexivity.
Qed.

Lemma table_store width height v cells x y val :
  0 <= x < width -> 0 <= y < height ->
  Z.of_nat (length cells) = width * height ->
  table_upto width v cells (y * width + x) ->
  val = to_unsigned (prefix_sum v x y) ->
  exists cells', store cells (y * width + x) val = Some cells'
                 /\ Z.of_nat (length cells') = width * height
                 /\ table_upto width v cells' (y * width + x + 1).
Proof.
  intros Hx Hy Hlen Htab ->.
  pose proof (cell_index_bound width height x y Hx Hy) as Hk.
  eexists. split; [apply store_Some; lia |].
  split; [rewrite length_insert; assumption |].
  intros x' y' Hx' Hy' Hlt.
  destruct (Z.eq_dec (y' * width + x') (y * width + x)) as [Heq | Hne].
  - destruct (cell_index_inj width x' y' x y Hx' Hx Heq) as [-> ->].
    apply list_lookup_insert_eq. lia.
  - rewrite list_lookup_insert_ne.
    + apply Htab; lia.
    + assert (0 <= y' * width + x') by nia. lia.
Qed.

Lemma table_left width v cells x y :
  0 < x < width -> 0 <= y -> table_upto width v cells (y * width + x) ->
  load cells (y * width + x + -1) = Some (to_unsigned (prefix_sum v (x - 1) y)).
Proof.
  intros Hx Hy Htab.
  replace (y * width + x + -1) with (y * width + (x - 1)) by lia.
  apply load_Some; [nia |]. apply Htab; lia.
Qed.

Lemma table_up width v cells x y :
  0 <= x < width -> 0 < y -> table_upto width v cells (y * width + x) ->
  load cells (y * width + x + - width) = Some (to_unsigned (prefix_sum v x (y - 1))).
Proof.
  intros Hx Hy Htab.
  replace (y * width + x + - width) with ((y - 1) * width + x) by lia.
  apply load_Some; [nia |]. apply Htab; lia.
Qed.

Lemma table_diag width v cells x y :
  0 < x < width -> 0 < y -> table_upto width v cells (y * width + x) ->
  load cells (y * width + x + (- width - 1))
  = Some (to_unsigned (prefix_sum v (x - 1) (y - 1))).
Proof.
  intros Hx Hy Htab.
  replace (y * width + x + (- width - 1)) with ((y - 1) * width + (x - 1)) by lia.
  apply load_Some; [nia |]. apply Htab; lia.
Qed.

Lemma precompute_body_ok width height c d x y s :
  Z.of_nat (length d) = width * 4 * height ->
  0 <= c < 4 -> 0 <= x < width -> 0 <= y < height ->
  precompute_inv width height c d (y * width + x) s ->
  exists s', precompute_body width x y s = Some s'
             /\ precompute_inv width height c d (y * width + x + 1) s'.
Proof.
  intros Hlen Hc Hx Hy [Hsrc Hpix Hpre Hcells Htab].
  pose proof (cell_index_bound width height x y Hx Hy) as Hk.
  set (v := byte_at width d c) in *.
  unfold precompute_body. rewrite Hsrc, Hpix, Hpre.
  rewrite (load_Some d _ (v x y)); [| lia |].
  2:{ replace (0 + c + 4 * (y * width + x)) with (4 * (y * width + x) + c) by lia.
      apply lookup_byte_at. lia. }
  simpl.
  assert (Hend : forall tot,
    to_unsigned tot = to_unsigned (prefix_sum v x y) ->
    exists s',
      (cells ← store (precalc s) (y * width + x) (to_unsigned tot);
       Some {| src := d; precalc := cells;
               pix := 0 + c + 4 * (y * width + x) + 4;
               pre := y * width + x + 1 |}) = Some s'
      /\ precompute_inv width height c d (y * width + x + 1) s').
  { intros tot Htot.
    destruct (table_store width height v (precalc s) x y (to_unsigned tot))
      as (cells & Hst & Hl & Ht); try assumption.
    rewrite Hst. simpl. eexists. split; [reflexivity |].
    constructor; simpl; try assumption; try reflexivity. lia. }
  rewrite (prefix_sum_rec v x y) in Hend by lia.
  destruct (Z.ltb_spec 0 x) as [Hx0 | Hx0], (Z.ltb_spec 0 y) as [Hy0 | Hy0]; simpl in *.
  - rewrite (table_left width v), (table_up width v), (table_diag width v)
      by (assumption || lia).
    simpl. apply Hend. wrap.
  - rewrite (table_left width v) by (assumption || lia).
    simpl. apply Hend. wrap.
  - rewrite (table_up width v) by (assumption || lia).
    simpl. apply Hend. wrap.
  - apply Hend. f_equal. lia.
Qed.

Lemma precompute_ok width height c s :
  0 < width -> 0 < height ->
  Z.of_nat (length (src s)) = width * 4 * height ->
  Z.of_nat (length (precalc s)) = width * height ->
  0 <= c < 4 ->
  exists s', precompute width height c s = Some s'
             /\ src s' = src s
             /\ Z.of_nat (length (precalc s')) = width * height
             /\ table_upto width (byte_at width (src s) c) (precalc s') (width * height).
Proof.
  intros Hw Hh Hlen Hcells Hc. unfold precompute.
  destruct (for_loop_inv
              (fun y s' => precompute_inv width height c (src s) (y * width) s')
              (fun y s' => for_loop 0 width
                             (fun x s'' => precompute_body width x y s'') s')
              0 height
              {| src := src s; precalc := precalc s; pix := 0 + c; pre := 0 |})
    as (s' & Hrun & Hinv).
  - lia.
  - constructor; simpl; try reflexivity; try lia.
    intros x y Hx Hy Hlt. nia.
  - intros y s0 Hy Hs0.
    destruct (for_loop_inv
                (fun x s' => precompute_inv width height c (src s) (y * width + x) s')
                (fun x s'' => precompute_body width x y s'') 0 width s0)
      as (s1 & Hrow & H1).
    + lia.
    + replace (y * width + 0) with (y * width) by lia. assumption.
    + intros x s1 Hx H1.
      destruct (precompute_body_ok width height c (src s) x y s1) as (s2 & Hb & H2);
        try assumption; try lia.
      exists s2. split; [assumption |].
      replace (y * width + (x + 1)) with (y * width + x + 1) by lia. assumption.
    + exists s1. split; [assumption |].
      replace ((y + 1) * width) with (y * width + width) by lia. assumption.
  - exists s'. split; [assumption |].
    destruct Hinv as [Hsrc _ _ Hcells' Htab].
    repeat split; try assumption.
    replace (width * height) with (height * width) by lia. assumption.
Qed.

(** ** The total of the blur step *)

Lemma table_cell width height v cells x y :
  table_upto width v cells (width * height) ->
  0 <= x < width -> 0 <= y < height ->
  load cells (x + y * width) = Some (to_unsigned (prefix_sum v x y)).
Proof.
  intros Htab Hx Hy.
  pose proof (cell_index_bound width height x y Hx Hy).
  replace (x + y * width) with (y * width + x) by lia.
  apply load_Some; [lia |]. apply Htab; lia.
Qed.

Lemma window_tot_table width height v cells l t r b :
  table_upto width v cells (width * height) ->
  0 <= l < width -> 0 <= r < width -> 0 <= t < height -> 0 <= b < height ->
  window_tot cells width l t r b
  = Some (to_int (prefix_sum v r b + prefix_sum v l t
                  - prefix_sum v l b - prefix_sum v r t)).
Proof.
  intros Htab Hl Hr Ht Hb. unfold window_tot.
  rewrite !(table_cell width height v) by assumption. simpl.
  f_equal. apply to_int_congr. wrap.
Qed.

Lemma clamp_low x er : (if x <? er then 0 else x - er) = Z.max 0 (x - er).
Proof. destruct (Z.ltb_spec x er); lia. Qed.

Lemma clamp_high n x er :
  (if n <=? x + er then n - 1 else x + er) = Z.min (n - 1) (x + er).
Proof. destruct (Z.leb_spec n (x + er)); lia. Qed.

Lemma in_inset_true width height er x y :
  in_inset width height er x y = true
  <-> er <= x < width - er /\ er <= y < height - er.
Proof. unfold in_inset. rewrite !andb_true_iff. lia. Qed.

(** ** Bytes and pixel coordinates *)

Lemma byte_index_coords width x y c :
  0 <= x < width -> 0 <= c < 4 ->
  let k := 4 * (y * width + x) + c in
  k mod 4 = c /\ (k / 4) mod width = x /\ (k / 4) / width = y.
Proof.
  intros Hx Hc k.
  assert (Hq : k / 4 = y * width + x).
  { symmetry. apply (Z.div_unique k 4 _ c); [lia | reflexivity]. }
  split; [| split].
  - symmetry. apply (Z.mod_unique k 4 (y * width + x)); [lia | reflexivity].
  - rewrite Hq. symmetry. apply (Z.mod_unique _ width y); lia.
  - rewrite Hq. symmetry. apply (Z.div_unique _ width _ x); lia.
Qed.

Lemma byte_index_decompose width k :
  0 < width -> 0 <= k ->
  let x := (k / 4) mod width in
  let y := (k / 4) / width in
  k = 4 * (y * width + x) + k mod 4
  /\ 0 <= x < width /\ 0 <= y /\ 0 <= k mod 4 < 4.
Proof.
  intros Hw Hk x y.
  pose proof (Z.div_mod k 4 ltac:(lia)).
  pose proof (Z.div_mod (k / 4) width ltac:(lia)).
  pose proof (Z.mod_pos_bound k 4 ltac:(lia)).
  pose proof (Z.mod_pos_bound (k / 4) width Hw).
  assert (0 <= k / 4) by (apply Z.div_pos; lia).
  assert (0 <= k / 4 / width) by (apply Z.div_pos; lia).
  subst x y. lia.
Qed.

(** ** The bytes of a partial pass *)

Lemma box_pass_upto_lookup width height er c x0 y0 d i :
  box_pass_upto width height er c x0 y0 d !! i
  = box_byte width height er c x0 y0 d i <$> d !! i.
Proof. unfold box_pass_upto. apply list_lookup_imap. Qed.

Lemma box_pass_upto_length width height er c x0 y0 d :
  length (box_pass_upto width height er c x0 y0 d) = length d.
Proof. unfold box_pass_upto. apply length_imap. Qed.

(** Two bounds that agree on the inset pixels give the same bytes. *)
Lemma box_pass_upto_ext width height er c x0 y0 x1 y1 d :
  0 < width ->
  (forall x y, 0 <= x < width -> in_inset width height er x y = true ->
     done_before x0 y0 x y = done_before x1 y1 x y) ->
  box_pass_upto width height er c x0 y0 d = box_pass_upto width height er c x1 y1 d.
Proof.
  intros Hw H. unfold box_pass_upto. apply imap_ext. intros i old _.
  unfold box_byte.
  destruct (byte_index_decompose width (Z.of_nat i) Hw ltac:(lia)) as (_ & Hx & _).
  destruct (Z.of_nat i mod 4 =? c); simpl; [| reflexivity].
  destruct (in_inset width height er _ _) eqn:Hin; simpl; [| reflexivity].
  rewrite (H _ _ Hx Hin). reflexivity.
Qed.

(** Nothing is rewritten when no inset pixel comes before the bound. *)
Lemma box_pass_upto_none width height er c x0 y0 d :
  0 < width ->
  (forall x y, 0 <= x < width -> in_inset width height er x y = true ->
     done_before x0 y0 x y = false) ->
  box_pass_upto width height er c x0 y0 d = d.
Proof.
  intros Hw H. apply list_eq. intros i.
  rewrite box_pass_upto_lookup.
  destruct (d !! i) as [old |]; simpl; [| reflexivity].
  f_equal. unfold box_byte.
  destruct (byte_index_decompose width (Z.of_nat i) Hw ltac:(lia)) as (_ & Hx & _).
  destruct (Z.of_nat i mod 4 =? c); simpl; [| reflexivity].
  destruct (in_inset width height er _ _) eqn:Hin; simpl; [| reflexivity].
  rewrite (H _ _ Hx Hin). reflexivity.
Qed.

(** Storing the average of the pixel [(x, y)] moves the bound one pixel on. *)
Lemma box_pass_upto_step width height er c x y d :
  0 < width ->
  Z.of_nat (length d) = width * 4 * height ->
  0 <= c < 4 -> 0 <= x < width -> 0 <= y < height ->
  in_inset width height er x y = true ->
  <[Z.to_nat (4 * (y * width + x) + c) :=
      average er (window_total (byte_at width d c) width height er x y)]>
    (box_pass_upto width height er c x y d)
  = box_pass_upto width height er c (x + 1) y d.
Proof.
  intros Hw Hlen Hc Hx Hy Hin.
  pose proof (cell_index_bound width height x y Hx Hy) as Hk.
  destruct (byte_index_coords width x y c Hx Hc) as (Hc' & Hx' & Hy').
  apply list_eq. intros i.
  destruct (decide (i = Z.to_nat (4 * (y * width + x) + c))) as [-> | Hne].
  - rewrite list_lookup_insert_eq by (rewrite box_pass_upto_length; lia).
    rewrite box_pass_upto_lookup.
    destruct (lookup_lt_is_Some_2 d (Z.to_nat (4 * (y * width + x) + c)))
      as [old ->]; [lia |].
    simpl. f_equal. unfold box_byte.
    rewrite Z2Nat.id by lia. rewrite Hc', Hx', Hy', Hin.
    rewrite Z.eqb_refl. unfold done_before.
    rewrite Z.eqb_refl. simpl.
    destruct (Z.ltb_spec y y), (Z.ltb_spec x (x + 1)); simpl; try reflexivity; lia.
  - rewrite list_lookup_insert_ne by congruence.
    rewrite !box_pass_upto_lookup.
    destruct (d !! i) as [old |]; simpl; [| reflexivity].
    f_equal. unfold box_byte.
    destruct (byte_index_decompose width (Z.of_nat i) Hw ltac:(lia))
      as (Hi & Hxi & Hyi & Hci).
    destruct (Z.eqb_spec (Z.of_nat i mod 4) c) as [Hci' |]; simpl; [| reflexivity].
    destruct (in_inset width height er (Z.of_nat i / 4 mod width)
                (Z.of_nat i / 4 / width)); simpl; [| reflexivity].
    replace (done_before (x + 1) y (Z.of_nat i / 4 mod width) (Z.of_nat i / 4 / width))
      with (done_before x y (Z.of_nat i / 4 mod width) (Z.of_nat i / 4 / width));
      [reflexivity |].
    unfold done_before.
    destruct (Z.ltb_spec (Z.of_nat i / 4 / width) y),
             (Z.eqb_spec (Z.of_nat i / 4 / width) y) as [Hey |],
             (Z.ltb_spec (Z.of_nat i / 4 mod width) x),
             (Z.ltb_spec (Z.of_nat i / 4 mod width) (x + 1));
      simpl; try reflexivity; lia.
Qed.

(** ** The blur step rewrites the inset pixels *)

Lemma blur_body_ok width height er c d cells x y s :
  0 < width ->
  Z.of_nat (length d) = width * 4 * height ->
  table_upto width (byte_at width d c) cells (width * height) ->
  0 <= c < 4 -> 0 <= er ->
  in_inset width height er x y = true ->
  blur_inv width height er c d cells x y s ->
  exists s', blur_body width height er (mul er) x y s = Some s'
             /\ blur_inv width height er c d cells (x + 1) y s'.
Proof.
  intros Hw Hlen Htab Hc Her Hin [Hsrc Hcells Hpix].
  pose proof (proj1 (in_inset_true _ _ _ _ _) Hin) as [Hx Hy].
  pose proof (cell_index_bound width height x y ltac:(lia) ltac:(lia)) as Hk.
  unfold blur_body. rewrite Hcells, Hsrc, Hpix.
  rewrite !clamp_low, !clamp_high.
  rewrite (window_tot_table width height (byte_at width d c)) by (assumption || lia).
  simpl.
  rewrite store_Some by (rewrite box_pass_upto_length; lia).
  simpl. eexists. split; [reflexivity |].
  constructor; simpl.
  - apply box_pass_upto_step; assumption || lia.
  - reflexivity.
  - lia.
Qed.

Lemma blur_step_ok width height er c d s :
  0 < width -> 0 < height -> 2 * width * height <= INT_MAX ->
  Z.of_nat (length d) = width * 4 * height ->
  0 <= c < 4 -> 0 <= er ->
  src s = d ->
  table_upto width (byte_at width d c) (precalc s) (width * height) ->
  exists s', blur_step width height er c (mul er) s = Some s'
             /\ src s' = box_pass width height er c d
             /\ precalc s' = precalc s.
Proof.
  intros Hw Hh Hsize Hlen Hc Her Hsrc Htab. unfold blur_step, box_pass.
  unfold INT_MAX in Hsize.
  destruct (Z.le_gt_cases (height - er) er) as [Hrows | Hrows].
  { (* no row in the inset *)
    rewrite for_loop_empty by assumption. eexists. split; [reflexivity |].
    simpl. split; [| reflexivity].
    rewrite Hsrc. symmetry. apply box_pass_upto_none; [assumption |].
    intros x y _ Hin. apply in_inset_true in Hin. lia. }
  destruct (Z.le_gt_cases (width - er) er) as [Hcols | Hcols].
  { (* rows, but no column: every inner loop is empty *)
    destruct (for_loop_inv
                (fun (_ : Z) s' => src s' = d /\ precalc s' = precalc s)
                (fun y s0 =>
                   s1 ← for_loop er (width - er)
                          (fun x s2 => blur_body width height er (mul er) x y s2) s0;
                   Some {| src := src s1; precalc := precalc s1;
                           pix := pix s1 + to_int (to_int (er * 2) * 4);
                           pre := pre s1 |})
                er (height - er)
                {| src := src s; precalc := precalc s;
                   pix := to_int (to_int (er * width) * 4) + to_int (er * 4) + c;
                   pre := pre s |})
      as (s' & Hrun & Hs' & Hp').
    - lia.
    - simpl. split; [assumption | reflexivity].
    - intros y s0 _ [H0 H1]. rewrite for_loop_empty by assumption. simpl.
      eexists. split; [reflexivity |]. simpl. split; assumption.
    - exists s'. split; [assumption |]. split; [| assumption].
      rewrite Hs'. symmetry. apply box_pass_upto_none; [assumption |].
      intros x y _ Hin. apply in_inset_true in Hin. lia. }
  (* the inset has pixels: the offsets are exact *)
  assert (Hew : 0 <= 2 * (er * width) <= width * height) by nia.
  assert (Hwh : 0 <= 8 * er <= 2 * width * height).
  { destruct (Z.eq_dec er 0) as [-> | Hne]; [nia |].
    assert (2 * width <= width * height) by nia. lia. }
  assert (Hoff : to_int (to_int (er * width) * 4) + to_int (er * 4) + c
                 = 4 * (er * width + er) + c).
  { rewrite (to_int_small (er * width)) by (unfold INT_MAX; lia).
    rewrite (to_int_small (er * width * 4)) by (unfold INT_MAX; lia).
    rewrite (to_int_small (er * 4)) by (unfold INT_MAX; lia). lia. }
  assert (Hskip : to_int (to_int (er * 2) * 4) = 8 * er).
  { rewrite (to_int_small (er * 2)) by (unfold INT_MAX; lia).
    rewrite (to_int_small (er * 2 * 4)) by (unfold INT_MAX; lia). lia. }
  clear Hew Hwh.
  rewrite Hoff, Hskip.
  destruct (for_loop_inv
              (fun y s' => blur_inv width height er c d (precalc s) er y s')
              (fun y s0 =>
                 s1 ← for_loop er (width - er)
                        (fun x s2 => blur_body width height er (mul er) x y s2) s0;
                 Some {| src := src s1; precalc := precalc s1;
                         pix := pix s1 + 8 * er; pre := pre s1 |})
              er (height - er)
              {| src := src s; precalc := precalc s;
                 pix := 4 * (er * width + er) + c; pre := pre s |})
    as (s' & Hrun & Hs').
  - lia.
  - constructor; simpl; try reflexivity.
    rewrite Hsrc. symmetry. apply box_pass_upto_none; [assumption |].
    intros x y _ Hin. apply in_inset_true in Hin. unfold done_before.
    destruct (Z.ltb_spec y er), (Z.eqb_spec y er), (Z.ltb_spec x er);
      simpl; try reflexivity; lia.
  - intros y s0 Hy H0.
    destruct (for_loop_inv
                (fun x s' => blur_inv width height er c d (precalc s) x y s')
                (fun x s2 => blur_body width height er (mul er) x y s2)
                er (width - er) s0)
      as (s1 & Hrow & [H1src H1cells H1pix]).
    + lia.
    + assumption.
    + intros x s1 Hx H1.
      apply (blur_body_ok width height er c d (precalc s)); try assumption.
      apply in_inset_true. lia.
    + rewrite Hrow. simpl. eexists. split; [reflexivity |].
      constructor; simpl.
      * rewrite H1src. apply box_pass_upto_ext; [assumption |].
        intros x' y' _ Hin. apply in_inset_true in Hin. unfold done_before.
        destruct (Z.ltb_spec y' y), (Z.eqb_spec y' y), (Z.ltb_spec x' (width - er)),
                 (Z.ltb_spec y' (y + 1)), (Z.eqb_spec y' (y + 1)), (Z.ltb_spec x' er);
          simpl; try reflexivity; lia.
      * assumption.
      * rewrite H1pix. lia.
  - exists s'. destruct Hs' as [Hs'src Hs'cells _].
    split; [assumption |]. split; [| assumption].
    rewrite Hs'src. apply box_pass_upto_ext; [assumption |].
    intros x' y' _ Hin. apply in_inset_true in Hin. unfold done_before.
    destruct (Z.ltb_spec y' (height - er)), (Z.eqb_spec y' (height - er)),
             (Z.ltb_spec x' er), (Z.ltb_spec y' height), (Z.eqb_spec y' height),
             (Z.ltb_spec x' 0);
      simpl; try reflexivity; lia.
Qed.

(** One channel pass, as a function on the bytes. *)
Lemma blur_channel_ok width height er c s :
  0 < width -> 0 < height -> 2 * width * height <= INT_MAX ->
  Z.of_nat (length (src s)) = width * 4 * height ->
  Z.of_nat (length (precalc s)) = width * height ->
  0 <= c < 4 -> 0 <= er ->
  exists s', blur_channel width height er (mul er) c s = Some s'
             /\ src s' = box_pass width height er c (src s)
             /\ Z.of_nat (length (precalc s')) = width * height
             /\ table_upto width (byte_at width (src s) c) (precalc s')
                   (width * height).
Proof.
  intros Hw Hh Hsize Hlen Hcells Hc Her. unfold blur_channel.
  destruct (precompute_ok width height c s) as (s1 & Hpre & H1src & H1len & H1tab);
    try assumption.
  rewrite Hpre. simpl.
  destruct (blur_step_ok width height er c (src s) s1) as (s2 & Hblur & H2src & H2cells);
    try assumption.
  exists s2. rewrite H2cells. repeat split; assumption.
Qed.

(** ** The whole call *)

Lemma box_pass_length width height er c d :
  length (box_pass width height er c d) = length d.
Proof. apply box_pass_upto_length. Qed.

Lemma box_iteration_length width height er d :
  length (box_iteration width height er d) = length d.
Proof. unfold box_iteration. simpl. rewrite !box_pass_length. reflexivity. Qed.

(** The loop over the four channels. *)
Lemma channels_ok width height er s :
  0 < width -> 0 < height -> 2 * width * height <= INT_MAX ->
  Z.of_nat (length (src s)) = width * 4 * height ->
  Z.of_nat (length (precalc s)) = width * height ->
  0 <= er ->
  exists s',
    for_loop 0 4 (fun channel s => blur_channel width height er (mul er) channel s) s
    = Some s'
    /\ src s' = box_iteration width height er (src s)
    /\ Z.of_nat (length (precalc s')) = width * height.
Proof.
  intros Hw Hh Hsize Hlen Hcells Her.
  rewrite for_loop_step by lia.
  destruct (blur_channel_ok width height er 0 s) as (s0 & -> & Hs0 & Hc0 & _);
    try assumption; try lia.
  cbn [mbind option_bind]. rewrite for_loop_step by lia. change (0 + 1) with 1.
  destruct (blur_channel_ok width height er 1 s0) as (s1 & -> & Hs1 & Hc1 & _);
    try assumption; try lia.
  { rewrite Hs0, box_pass_length. assumption. }
  cbn [mbind option_bind]. rewrite for_loop_step by lia. change (1 + 1) with 2.
  destruct (blur_channel_ok width height er 2 s1) as (s2 & -> & Hs2 & Hc2 & _);
    try assumption; try lia.
  { rewrite Hs1, Hs0, !box_pass_length. assumption. }
  cbn [mbind option_bind]. rewrite for_loop_step by lia. change (2 + 1) with 3.
  destruct (blur_channel_ok width height er 3 s2) as (s3 & -> & Hs3 & Hc3 & _);
    try assumption; try lia.
  { rewrite Hs2, Hs1, Hs0, !box_pass_length. assumption. }
  cbn [mbind option_bind]. rewrite for_loop_empty by lia. exists s3. split; [reflexivity |]. split; [| assumption].
  rewrite Hs3, Hs2, Hs1, Hs0. reflexivity.
Qed.

(** The call returns, and its result is the composition of the twelve
    channel passes; the contents of the fresh table play no part. *)
Lemma surface_blur_box_blur garbage width height d radius :
  well_formed width height d -> 1 <= to_int radius ->
  surface_blur garbage width height d radius
  = Some (box_blur width height (to_int radius - 1) d).
Proof.
  intros [Hw Hh Hsize Hlen _] Hr. unfold surface_blur. cbv zeta.
  pose proof (to_int_range radius) as Hint.
  rewrite (to_int_small (to_int radius - 1)) by (unfold INT_MAX in *; lia).
  generalize dependent (to_int radius). clear radius. intros radius Hr _.
  assert (Hwh : 0 <= width * height <= INT_MAX) by (unfold INT_MAX in *; nia).
  set (s := {| src := d; precalc := _; pix := 0; pre := 0 |}).
  assert (Hcells : Z.of_nat (length (precalc s)) = width * height).
  { subst s. simpl. rewrite length_map, length_seq.
    rewrite to_int_small by lia. lia. }
  unfold MAX_ITERATIONS.
  rewrite for_loop_step by lia.
  destruct (channels_ok width height (radius - 1) s) as (s0 & -> & Hs0 & Hc0);
    try assumption; try lia.
  cbn [mbind option_bind]. rewrite for_loop_step by lia.
  destruct (channels_ok width height (radius - 1) s0) as (s1 & -> & Hs1 & Hc1);
    try assumption; try lia.
  { rewrite Hs0, box_iteration_length. assumption. }
  cbn [mbind option_bind]. rewrite for_loop_step by lia.
  destruct (channels_ok width height (radius - 1) s1) as (s2 & -> & Hs2 & Hc2);
    try assumption; try lia.
  { rewrite Hs1, Hs0, !box_iteration_length. assumption. }
  cbn [mbind option_bind]. rewrite for_loop_empty by lia.
  cbn [mbind option_bind]. rewrite Hs2, Hs1, Hs0. reflexivity.
Qed.

(** The same for a caller radius that is an [int]. *)
Lemma surface_blur_int_radius garbage width height d radius :
  well_formed width height d -> 1 <= radius <= INT_MAX ->
  surface_blur garbage width height d radius
  = Some (box_blur width height (radius - 1) d).
Proof.
  intros Hwf Hr.
  assert (Hint : to_int radius = radius)
    by (apply to_int_small; unfold INT_MAX in *; lia).
  rewrite surface_blur_box_blur by (assumption || lia).
  rewrite Hint. reflexivity.
Qed.

(** ** The accesses, in order *)

Lemma flat_map_single {A B : Type} (f : A -> B) (l : list A) :
  flat_map (fun x => [f x]) l = map f l.
Proof. induction l as [| a l IH]; simpl; [reflexivity | rewrite IH; reflexivity]. Qed.

Lemma seqZ_snoc lo n : 0 <= n -> seqZ lo (n + 1) = seqZ lo n ++ [lo + n].
Proof.
  intros Hn. rewrite seqZ_app by lia.
  rewrite (seqZ_cons (lo + n) 1) by lia.
  rewrite (seqZ_nil (Z.succ (lo + n))) by lia. reflexivity.
Qed.

(** The rule of the counted loop with a record: when every round adds the
    accesses [what i], the loop adds them for [lo], [lo + 1], .. in turn. *)
Lemma for_loop_log_inv {S : Type} (I : Z -> S -> Prop) (what : Z -> list access)
    (body : Z -> S * list access -> option (S * list access)) lo hi s log :
  lo <= hi ->
  I lo s ->
  (forall i s log, lo <= i < hi -> I i s ->
     exists s', body i (s, log) = Some (s', log ++ what i) /\ I (i + 1) s') ->
  exists s',
    for_loop lo hi body (s, log)
    = Some (s', log ++ flat_map what (seqZ lo (hi - lo)))
    /\ I hi s'.
Proof.
  intros Hle Hs Hstep.
  destruct (for_loop_inv
              (fun i st => I i st.1
                           /\ st.2 = log ++ flat_map what (seqZ lo (i - lo)))
              body lo hi (s, log)) as ([s' log'] & Hrun & Hs' & Hlog).
  - assumption.
  - simpl. split; [assumption |].
    rewrite seqZ_nil by lia. simpl. rewrite app_nil_r. reflexivity.
  - intros i [s0 log0] Hi [H0 Hlog0]. simpl in H0, Hlog0.
    destruct (Hstep i s0 log0 Hi H0) as (s1 & Hb & H1).
    exists (s1, log0 ++ what i). split; [assumption |].
    simpl. split; [assumption |].
    replace (i + 1 - lo) with (i - lo + 1) by lia.
    rewrite seqZ_snoc by lia. rewrite flat_map_app. simpl.
    rewrite app_nil_r, Hlog0, <- app_assoc.
    replace (lo + (i - lo)) with i by lia. reflexivity.
  - simpl in Hs', Hlog. exists s'. subst log'. split; assumption.
Qed.

(** Keeping the record changes nothing else. *)
Lemma for_range_erase {S : Type}
    (body_log : Z -> S * list access -> option (S * list access))
    (body : Z -> S -> option S) n :
  (forall i st, fst <$> body_log i st = body i st.1) ->
  forall lo st, fst <$> for_range lo n body_log st = for_range lo n body st.1.
Proof.
  intros Hbody. induction n as [| n IH]; intros lo st; simpl; [reflexivity |].
  rewrite <- Hbody.
  destruct (body_log lo st) as [st' |]; simpl; [apply IH | reflexivity].
Qed.

Lemma for_loop_erase {S : Type}
    (body_log : Z -> S * list access -> option (S * list access))
    (body : Z -> S -> option S) lo hi st :
  (forall i st, fst <$> body_log i st = body i st.1) ->
  fst <$> for_loop lo hi body_log st = for_loop lo hi body st.1.
Proof. intros Hbody. apply for_range_erase. assumption. Qed.

Lemma logged_erase {S : Type} (step : S -> option S) what (st : S * list access) :
  fst <$> logged step what st = step st.1.
Proof. unfold logged. destruct (step st.1); reflexivity. Qed.

Lemma precompute_log_erase width height c st :
  fst <$> precompute_log width height c st = precompute width height c st.1.
Proof.
  unfold precompute_log, precompute.
  rewrite (for_loop_erase _
             (fun y s => for_loop 0 width (fun x s => precompute_body width x y s) s));
    [reflexivity |].
  intros y st'. apply for_loop_erase. intros x st''. apply logged_erase.
Qed.

Lemma blur_step_log_erase width height er c m st :
  fst <$> blur_step_log width height er c m st = blur_step width height er c m st.1.
Proof.
  unfold blur_step_log, blur_step.
  rewrite (for_loop_erase _
             (fun y s =>
                s ← for_loop er (width - er)
                      (fun x s => blur_body width height er m x y s) s;
                Some {| src := src s; precalc := precalc s;
                        pix := pix s + to_int (to_int (er * 2) * 4);
                        pre := pre s |}));
    [reflexivity |].
  intros y st'.
  rewrite <- (for_loop_erase
                (fun x st => logged (blur_body width height er m x y)
                               (fun s s' => [Write (pix s) (byte_of (src s') (pix s))]) st)
                (fun x s => blur_body width height er m x y s));
    [| intros x st''; apply logged_erase].
  destruct (for_loop er (width - er) _ st') as [st1 |]; reflexivity.
Qed.

Lemma blur_channel_log_erase width height er m c st :
  fst <$> blur_channel_log width height er m c st
  = blur_channel width height er m c st.1.
Proof.
  unfold blur_channel_log, blur_channel.
  rewrite <- precompute_log_erase.
  destruct (precompute_log width height c st) as [st1 |]; simpl;
    [apply blur_step_log_erase | reflexivity].
Qed.

Lemma surface_blur_log_erase garbage width height d radius :
  fst <$> surface_blur_log garbage width height d radius
  = surface_blur garbage width height d radius.
Proof.
  unfold surface_blur_log, surface_blur. cbv zeta.
  set (er := to_int (to_int radius - 1)).
  set (s0 := {| src := d; precalc := _; pix := 0; pre := 0 |}).
  pose proof (for_loop_erase
                (fun iteration st =>
                   for_loop 0 4
                     (fun channel st =>
                        blur_channel_log width height er (mul er) channel st) st)
                (fun iteration s =>
                   for_loop 0 4
                     (fun channel s =>
                        blur_channel width height er (mul er) channel s) s)
                0 MAX_ITERATIONS (s0, [])) as He.
  cbn [fst] in He. rewrite <- He.
  - destruct (for_loop 0 MAX_ITERATIONS _ (s0, [])) as [st |]; reflexivity.
  - intros i st. apply for_loop_erase. intros ch st'. apply blur_channel_log_erase.
Qed.

(** The precomputation reads the channel, byte after byte. *)
Lemma precompute_log_ok width height c s log :
  0 < width -> 0 < height ->
  Z.of_nat (length (src s)) = width * 4 * height ->
  Z.of_nat (length (precalc s)) = width * height ->
  0 <= c < 4 ->
  exists s',
    precompute_log width height c (s, log)
    = Some (s', log ++ reads width height c (src s))
    /\ precompute width height c s = Some s'.
Proof.
  intros Hw Hh Hlen Hcells Hc.
  assert (Hrun : exists s',
            precompute_log width height c (s, log)
            = Some (s', log ++ reads width height c (src s))).
  { unfold precompute_log, reads. simpl.
    destruct (for_loop_log_inv
                (fun y s' => precompute_inv width height c (src s) (y * width) s')
                (fun y => map (fun x => Read (4 * (y * width + x) + c)
                                             (byte_of (src s) (4 * (y * width + x) + c)))
                              (seqZ 0 width))
                (fun y st =>
                   for_loop 0 width
                     (fun x st =>
                        logged (precompute_body width x y)
                          (fun s _ => [Read (pix s) (byte_of (src s) (pix s))]) st) st)
                0 height
                {| src := src s; precalc := precalc s; pix := 0 + c; pre := 0 |} log)
      as (s' & Hrun & _).
    - lia.
    - constructor; simpl; try reflexivity; try lia.
      intros x y Hx Hy Hlt. nia.
    - intros y s0 log0 Hy Hs0.
      destruct (for_loop_log_inv
                  (fun x s' => precompute_inv width height c (src s) (y * width + x) s')
                  (fun x => [Read (4 * (y * width + x) + c)
                                  (byte_of (src s) (4 * (y * width + x) + c))])
                  (fun x st =>
                     logged (precompute_body width x y)
                       (fun s _ => [Read (pix s) (byte_of (src s) (pix s))]) st)
                  0 width s0 log0)
        as (s1 & Hrow & H1).
      + lia.
      + replace (y * width + 0) with (y * width) by lia. assumption.
      + intros x s1 log1 Hx H1.
        destruct (precompute_body_ok width height c (src s) x y s1) as (s2 & Hb & H2);
          try assumption; try lia.
        exists s2. unfold logged. simpl. rewrite Hb. simpl. split.
        * destruct H1 as [H1src H1pix _ _ _]. rewrite H1src, H1pix.
          replace (0 + c + 4 * (y * width + x)) with (4 * (y * width + x) + c) by lia.
          reflexivity.
        * replace (y * width + (x + 1)) with (y * width + x + 1) by lia. assumption.
      + exists s1. split.
        * rewrite Hrow. rewrite flat_map_single, Z.sub_0_r. reflexivity.
        * replace ((y + 1) * width) with (y * width + width) by lia. assumption.
    - exists s'. rewrite Hrun, Z.sub_0_r. reflexivity. }
  destruct Hrun as (s' & Hrun). exists s'. split; [assumption |].
  pose proof (precompute_log_erase width height c (s, log)) as He.
  rewrite Hrun in He. simpl in He. symmetry. exact He.
Qed.

(** The byte that the blur body has just stored. *)
Lemma box_pass_upto_written width height er c x y d :
  0 < width ->
  Z.of_nat (length d) = width * 4 * height ->
  0 <= c < 4 -> 0 <= x < width -> 0 <= y < height ->
  in_inset width height er x y = true ->
  byte_of (box_pass_upto width height er c (x + 1) y d) (4 * (y * width + x) + c)
  = average er (window_total (byte_at width d c) width height er x y).
Proof.
  intros Hw Hlen Hc Hx Hy Hin.
  pose proof (cell_index_bound width height x y Hx Hy) as Hk.
  destruct (byte_index_coords width x y c Hx Hc) as (Hc' & Hx' & Hy').
  unfold byte_of. rewrite box_pass_upto_lookup.
  destruct (lookup_lt_is_Some_2 d (Z.to_nat (4 * (y * width + x) + c)))
    as [old ->]; [lia |].
  simpl. unfold box_byte.
  rewrite Z2Nat.id by lia. rewrite Hc', Hx', Hy', Hin, Z.eqb_refl.
  unfold done_before. rewrite Z.eqb_refl.
  destruct (Z.ltb_spec y y), (Z.ltb_spec x (x + 1)); simpl; try reflexivity; lia.
Qed.

(** The blur step writes the inset bytes of the channel, one after the
    other. *)
Lemma blur_step_log_ok width height er c d s log :
  0 < width -> 0 < height -> 2 * width * height <= INT_MAX ->
  Z.of_nat (length d) = width * 4 * height ->
  0 <= c < 4 -> 0 <= er ->
  src s = d ->
  table_upto width (byte_at width d c) (precalc s) (width * height) ->
  exists s',
    blur_step_log width height er c (mul er) (s, log)
    = Some (s', log ++ writes width height er c d)
    /\ blur_step width height er c (mul er) s = Some s'.
Proof.
  intros Hw Hh Hsize Hlen Hc Her Hsrc Htab.
  assert (Hrun : exists s',
            blur_step_log width height er c (mul er) (s, log)
            = Some (s', log ++ writes width height er c d)).
  { unfold blur_step_log, writes. simpl.
    unfold INT_MAX in Hsize.
    destruct (Z.le_gt_cases (height - er) er) as [Hrows | Hrows].
    { (* no row in the inset *)
      rewrite for_loop_empty by assumption.
      rewrite (seqZ_nil er (height - er - er)) by lia. simpl.
      rewrite app_nil_r. eexists. reflexivity. }
    destruct (Z.le_gt_cases (width - er) er) as [Hcols | Hcols].
    { (* rows, but no column: every inner loop is empty *)
      destruct (for_loop_log_inv
                  (fun (_ : Z) (_ : state) => True)
                  (fun y => map (fun x => Write (4 * (y * width + x) + c)
                                   (average er (window_total (byte_at width d c)
                                                  width height er x y)))
                              (seqZ er (width - er - er)))
                  (fun y st =>
                     st ← for_loop er (width - er)
                            (fun x st =>
                               logged (blur_body width height er (mul er) x y)
                                 (fun s s' => [Write (pix s) (byte_of (src s') (pix s))])
                                 st) st;
                     Some ({| src := src st.1; precalc := precalc st.1;
                              pix := pix st.1 + to_int (to_int (er * 2) * 4);
                              pre := pre st.1 |}, st.2))
                  er (height - er)
                  {| src := src s; precalc := precalc s;
                     pix := to_int (to_int (er * width) * 4) + to_int (er * 4) + c;
                     pre := pre s |} log)
        as (s' & Hrun & _).
      - lia.
      - exact I.
      - intros y s0 log0 _ _. rewrite for_loop_empty by assumption. simpl.
        rewrite (seqZ_nil er (width - er - er)) by lia. simpl.
        rewrite app_nil_r. eexists. split; [reflexivity | exact I].
      - exists s'. rewrite Hrun. reflexivity. }
    (* the inset has pixels: the offsets are exact *)
    assert (Hew : 0 <= 2 * (er * width) <= width * height) by nia.
    assert (Hwh : 0 <= 8 * er <= 2 * width * height).
    { destruct (Z.eq_dec er 0) as [-> | Hne]; [nia |].
      assert (2 * width <= width * height) by nia. lia. }
    assert (Hoff : to_int (to_int (er * width) * 4) + to_int (er * 4) + c
                   = 4 * (er * width + er) + c).
    { rewrite (to_int_small (er * width)) by (unfold INT_MAX; lia).
      rewrite (to_int_small (er * width * 4)) by (unfold INT_MAX; lia).
      rewrite (to_int_small (er * 4)) by (unfold INT_MAX; lia). lia. }
    assert (Hskip : to_int (to_int (er * 2) * 4) = 8 * er).
    { rewrite (to_int_small (er * 2)) by (unfold INT_MAX; lia).
      rewrite (to_int_small (er * 2 * 4)) by (unfold INT_MAX; lia). lia. }
    clear Hew Hwh.
    rewrite Hoff, Hskip.
    destruct (for_loop_log_inv
                (fun y s' => blur_inv width height er c d (precalc s) er y s')
                (fun y => map (fun x => Write (4 * (y * width + x) + c)
                                 (average er (window_total (byte_at width d c)
                                                width height er x y)))
                            (seqZ er (width - er - er)))
                (fun y st =>
                   st ← for_loop er (width - er)
                          (fun x st =>
                             logged (blur_body width height er (mul er) x y)
                               (fun s s' => [Write (pix s) (byte_of (src s') (pix s))])
                               st) st;
                   Some ({| src := src st.1; precalc := precalc st.1;
                            pix := pix st.1 + 8 * er; pre := pre st.1 |}, st.2))
                er (height - er)
                {| src := src s; precalc := precalc s;
                   pix := 4 * (er * width + er) + c; pre := pre s |} log)
      as (s' & Hrun & _).
    - lia.
    - constructor; simpl; try reflexivity.
      rewrite Hsrc. symmetry. apply box_pass_upto_none; [assumption |].
      intros x y _ Hin. apply in_inset_true in Hin. unfold done_before.
      destruct (Z.ltb_spec y er), (Z.eqb_spec y er), (Z.ltb_spec x er);
        simpl; try reflexivity; lia.
    - intros y s0 log0 Hy H0.
      destruct (for_loop_log_inv
                  (fun x s' => blur_inv width height er c d (precalc s) x y s')
                  (fun x => [Write (4 * (y * width + x) + c)
                               (average er (window_total (byte_at width d c)
                                              width height er x y))])
                  (fun x st =>
                     logged (blur_body width height er (mul er) x y)
                       (fun s s' => [Write (pix s) (byte_of (src s') (pix s))]) st)
                  er (width - er) s0 log0)
        as (s1 & Hrow & [H1src H1cells H1pix]).
      + lia.
      + assumption.
      + intros x s1 log1 Hx H1.
        assert (Hin : in_inset width height er x y = true)
          by (apply in_inset_true; lia).
        destruct (blur_body_ok width height er c d (precalc s) x y s1)
          as (s2 & Hb & H2); try assumption.
        exists s2. unfold logged. simpl. rewrite Hb. simpl.
        split; [| assumption].
        destruct H1 as [_ _ H1pix]. destruct H2 as [H2src _ _].
        rewrite H1pix, H2src.
        rewrite box_pass_upto_written by (assumption || lia). reflexivity.
      + rewrite Hrow. simpl. eexists. split.
        * rewrite flat_map_single. reflexivity.
        * constructor; simpl.
          -- rewrite H1src. apply box_pass_upto_ext; [assumption |].
             intros x' y' _ Hin. apply in_inset_true in Hin. unfold done_before.
             destruct (Z.ltb_spec y' y), (Z.eqb_spec y' y), (Z.ltb_spec x' (width - er)),
                      (Z.ltb_spec y' (y + 1)), (Z.eqb_spec y' (y + 1)), (Z.ltb_spec x' er);
               simpl; try reflexivity; lia.
          -- assumption.
          -- rewrite H1pix. lia.
    - exists s'. rewrite Hrun. reflexivity. }
  destruct Hrun as (s' & Hrun). exists s'. split; [assumption |].
  pose proof (blur_step_log_erase width height er c (mul er) (s, log)) as He.
  rewrite Hrun in He. simpl in He. symmetry. exact He.
Qed.

(** One channel pass: the reads, then the writes. *)
Lemma blur_channel_log_ok width height er c s log :
  0 < width -> 0 < height -> 2 * width * height <= INT_MAX ->
  Z.of_nat (length (src s)) = width * 4 * height ->
  Z.of_nat (length (precalc s)) = width * height ->
  0 <= c < 4 -> 0 <= er ->
  exists s',
    blur_channel_log width height er (mul er) c (s, log)
    = Some (s', log ++ (reads width height c (src s)
                        ++ writes width height er c (src s)))
    /\ src s' = box_pass width height er c (src s)
    /\ Z.of_nat (length (precalc s')) = width * height.
Proof.
  intros Hw Hh Hsize Hlen Hcells Hc Her. unfold blur_channel_log.
  destruct (precompute_log_ok width height c s log) as (s1 & Hlog1 & Hpre);
    try assumption.
  destruct (precompute_ok width height c s) as (s1' & Hpre' & H1src & H1len & H1tab);
    try assumption.
  rewrite Hpre in Hpre'. injection Hpre' as <-.
  rewrite Hlog1. simpl.
  destruct (blur_step_log_ok width height er c (src s) s1
              (log ++ reads width height c (src s)))
    as (s2 & Hlog2 & Hblur); try assumption.
  destruct (blur_step_ok width height er c (src s) s1) as (s2' & Hblur' & H2src & H2cells);
    try assumption.
  rewrite Hblur in Hblur'. injection Hblur' as <-.
  exists s2. rewrite Hlog2, <- app_assoc, H2cells. repeat split; assumption.
Qed.

(** The loop over the four channels. *)
Lemma channels_log_ok width height er s log :
  0 < width -> 0 < height -> 2 * width * height <= INT_MAX ->
  Z.of_nat (length (src s)) = width * 4 * height ->
  Z.of_nat (length (precalc s)) = width * height ->
  0 <= er ->
  exists s',
    for_loop 0 4
      (fun channel st => blur_channel_log width height er (mul er) channel st) (s, log)
    = Some (s', log ++ accesses width height er [0; 1; 2; 3] (src s))
    /\ src s' = box_iteration width height er (src s)
    /\ Z.of_nat (length (precalc s')) = width * height.
Proof.
  intros Hw Hh Hsize Hlen Hcells Her.
  rewrite for_loop_step by lia.
  destruct (blur_channel_log_ok width height er 0 s log) as (s0 & -> & Hs0 & Hc0);
    try assumption; try lia.
  cbn [mbind option_bind]. rewrite for_loop_step by lia. change (0 + 1) with 1.
  destruct (blur_channel_log_ok width height er 1 s0
              (log ++ (reads width height 0 (src s)
                       ++ writes width height er 0 (src s))))
    as (s1 & -> & Hs1 & Hc1); try assumption; try lia.
  { rewrite Hs0, box_pass_length. assumption. }
  cbn [mbind option_bind]. rewrite for_loop_step by lia. change (1 + 1) with 2.
  destruct (blur_channel_log_ok width height er 2 s1
              ((log ++ (reads width height 0 (src s)
                        ++ writes width height er 0 (src s)))
               ++ (reads width height 1 (src s0)
                   ++ writes width height er 1 (src s0))))
    as (s2 & -> & Hs2 & Hc2); try assumption; try lia.
  { rewrite Hs1, Hs0, !box_pass_length. assumption. }
  cbn [mbind option_bind]. rewrite for_loop_step by lia. change (2 + 1) with 3.
  destruct (blur_channel_log_ok width height er 3 s2
              (((log ++ (reads width height 0 (src s)
                         ++ writes width height er 0 (src s)))
                ++ (reads width height 1 (src s0)
                    ++ writes width height er 1 (src s0)))
               ++ (reads width height 2 (src s1)
                   ++ writes width height er 2 (src s1))))
    as (s3 & -> & Hs3 & Hc3); try assumption; try lia.
  { rewrite Hs2, Hs1, Hs0, !box_pass_length. assumption. }
  cbn [mbind option_bind]. rewrite for_loop_empty by lia.
  exists s3. split; [| split; [| assumption]].
  - f_equal. f_equal. cbn [accesses]. rewrite app_nil_r.
    rewrite <- Hs0, <- Hs1, <- Hs2. rewrite <- !app_assoc. reflexivity.
  - rewrite Hs3, Hs2, Hs1, Hs0. reflexivity.
Qed.

Lemma accesses_app width height er cs1 cs2 d :
  accesses width height er (cs1 ++ cs2) d
  = accesses width height er cs1 d
    ++ accesses width height er cs2
         (foldl (fun d c => box_pass width height er c d) d cs1).
Proof.
  revert d. induction cs1 as [| c cs1 IH]; intros d; simpl; [reflexivity |].
  rewrite IH, <- !app_assoc. reflexivity.
Qed.

(** The record tells the order of the passes: that of a pass of channel
    [c] starts with the read of the byte [c], the first of that channel. *)
Lemma accesses_head width height er c cs d :
  0 < width -> 0 < height ->
  head (accesses width height er (c :: cs) d) = Some (Read c (byte_of d c)).
Proof.
  intros Hw Hh. simpl. unfold reads.
  rewrite (seqZ_cons 0 height) by lia. simpl.
  rewrite (seqZ_cons 0 width) by lia. simpl.
  replace (4 * (0 * width + 0) + c) with c by lia. reflexivity.
Qed.

(** The call with its record: three times the four channel passes. *)
Lemma surface_blur_log_ok garbage width height d radius :
  well_formed width height d -> 1 <= to_int radius ->
  surface_blur_log garbage width height d radius
  = Some (box_blur width height (to_int radius - 1) d,
          accesses width height (to_int radius - 1)
            [0; 1; 2; 3; 0; 1; 2; 3; 0; 1; 2; 3] d).
Proof.
  intros [Hw Hh Hsize Hlen _] Hr. unfold surface_blur_log. cbv zeta.
  pose proof (to_int_range radius) as Hint.
  rewrite (to_int_small (to_int radius - 1)) by (unfold INT_MAX in *; lia).
  generalize dependent (to_int radius). clear radius. intros radius Hr _.
  assert (Hwh : 0 <= width * height <= INT_MAX) by (unfold INT_MAX in *; nia).
  set (s := {| src := d; precalc := _; pix := 0; pre := 0 |}).
  assert (Hcells : Z.of_nat (length (precalc s)) = width * height).
  { subst s. simpl. rewrite length_map, length_seq.
    rewrite to_int_small by lia. lia. }
  unfold MAX_ITERATIONS.
  rewrite for_loop_step by lia.
  destruct (channels_log_ok width height (radius - 1) s []) as (s0 & -> & Hs0 & Hc0);
    try assumption; try lia.
  cbn [mbind option_bind]. rewrite for_loop_step by lia.
  destruct (channels_log_ok width height (radius - 1) s0
              ([] ++ accesses width height (radius - 1) [0; 1; 2; 3] (src s)))
    as (s1 & -> & Hs1 & Hc1); try assumption; try lia.
  { rewrite Hs0, box_iteration_length. assumption. }
  cbn [mbind option_bind]. rewrite for_loop_step by lia.
  destruct (channels_log_ok width height (radius - 1) s1
              (([] ++ accesses width height (radius - 1) [0; 1; 2; 3] (src s))
               ++ accesses width height (radius - 1) [0; 1; 2; 3] (src s0)))
    as (s2 & -> & Hs2 & Hc2); try assumption; try lia.
  { rewrite Hs1, Hs0, !box_iteration_length. assumption. }
  cbn [mbind option_bind]. rewrite for_loop_empty by lia.
  cbn [mbind option_bind fst snd]. f_equal. f_equal.
  - rewrite Hs2, Hs1, Hs0. reflexivity.
  - change [0; 1; 2; 3; 0; 1; 2; 3; 0; 1; 2; 3]
      with ([0; 1; 2; 3] ++ [0; 1; 2; 3] ++ [0; 1; 2; 3]).
    rewrite !accesses_app. rewrite Hs1, Hs0. unfold box_iteration.
    subst s. cbn [src app]. rewrite <- !app_assoc. reflexivity.
Qed.

(** ** The bytes of a whole pass *)

Lemma box_pass_inset width height er c d x y :
  0 < width -> 0 < height ->
  Z.of_nat (length d) = width * 4 * height ->
  0 <= c < 4 -> 0 <= er ->
  in_inset width height er x y = true ->
  byte_at width (box_pass width height er c d) c x y
  = average er (window_total (byte_at width d c) width height er x y).
Proof.
  intros Hw Hh Hlen Hc Her Hin.
  pose proof (proj1 (in_inset_true _ _ _ _ _) Hin) as [Hx Hy].
  pose proof (cell_index_bound width height x y ltac:(lia) ltac:(lia)) as Hk.
  destruct (byte_index_coords width x y c ltac:(lia) Hc) as (Hc' & Hx' & Hy').
  unfold byte_at at 1, box_pass. rewrite box_pass_upto_lookup.
  destruct (lookup_lt_is_Some_2 d (Z.to_nat (4 * (y * width + x) + c)))
    as [old ->]; [lia |].
  simpl. unfold box_byte.
  rewrite Z2Nat.id by lia. rewrite Hc', Hx', Hy', Hin, Z.eqb_refl.
  unfold done_before. destruct (Z.ltb_spec y height); [reflexivity | lia].
Qed.

Lemma box_pass_outside width height er c d c' x y :
  0 < width -> 0 <= x < width -> 0 <= y -> 0 <= c' < 4 ->
  c' <> c \/ in_inset width height er x y = false ->
  box_pass width height er c d !! Z.to_nat (4 * (y * width + x) + c')
  = d !! Z.to_nat (4 * (y * width + x) + c').
Proof.
  intros Hw Hx Hy Hc' Hout.
  destruct (byte_index_coords width x y c' Hx Hc') as (Hc'' & Hx' & Hy').
  assert (0 <= 4 * (y * width + x) + c') by nia.
  unfold box_pass. rewrite box_pass_upto_lookup.
  destruct (d !! Z.to_nat (4 * (y * width + x) + c')) as [old |]; simpl;
    [| reflexivity].
  f_equal. unfold box_byte.
  rewrite Z2Nat.id by lia. rewrite Hc'', Hx', Hy'.
  destruct Hout as [Hne | ->].
  - destruct (Z.eqb_spec c' c); [contradiction | reflexivity].
  - rewrite andb_false_r. reflexivity.
Qed.

Lemma box_pass_empty width height er c d :
  0 < width -> width - er <= er \/ height - er <= er ->
  box_pass width height er c d = d.
Proof.
  intros Hw He. apply box_pass_upto_none; [assumption |].
  intros x y _ Hin. apply in_inset_true in Hin. lia.
Qed.

Lemma box_blur_outside width height er d c x y :
  0 < width -> 0 <= x < width -> 0 <= y -> 0 <= c < 4 ->
  in_inset width height er x y = false ->
  box_blur width height er d !! Z.to_nat (4 * (y * width + x) + c)
  = d !! Z.to_nat (4 * (y * width + x) + c).
Proof.
  intros Hw Hx Hy Hc Hout. unfold box_blur, box_iteration. simpl.
  rewrite !box_pass_outside by (assumption || (right; assumption)).
  reflexivity.
Qed.

Lemma box_blur_empty width height er d :
  0 < width -> width - er <= er \/ height - er <= er ->
  box_blur width height er d = d.
Proof.
  intros Hw He. unfold box_blur, box_iteration. simpl.
  rewrite !box_pass_empty by assumption. reflexivity.
Qed.

Lemma box_blur_length width height er d :
  length (box_blur width height er d) = length d.
Proof. unfold box_blur. rewrite !box_iteration_length. reflexivity. Qed.

(** ** Bytes, and sums of bytes *)

Lemma byte_at_range width d c x y :
  Forall (fun b => 0 <= b < 256) d -> 0 <= byte_at width d c x y < 256.
Proof.
  intros Hd. unfold byte_at.
  destruct (d !! Z.to_nat (4 * (y * width + x) + c)) as [b |] eqn:Hb; simpl; [| lia].
  exact (proj1 (Forall_lookup _ d) Hd _ _ Hb).
Qed.

Lemma sum_upto_nonneg f n :
  (forall i, 0 <= i < Z.of_nat n -> 0 <= f i) -> 0 <= sum_upto f n.
Proof.
  induction n as [| n IH]; intros H; simpl; [lia |].
  assert (0 <= sum_upto f n) by (apply IH; intros; apply H; lia).
  assert (0 <= f (Z.of_nat n)) by (apply H; lia). lia.
Qed.

Lemma rect_sum_nonneg v x0 x1 y0 y1 :
  (forall x y, 0 <= v x y) -> 0 <= rect_sum v x0 x1 y0 y1.
Proof.
  intros H. unfold rect_sum, sum_between.
  apply sum_upto_nonneg. intros j _. apply sum_upto_nonneg. intros i _. apply H.
Qed.

Lemma well_formedb_true width height d :
  well_formedb width height d = true -> well_formed width height d.
Proof.
  unfold well_formedb. rewrite !andb_true_iff.
  intros ((((Hw & Hh) & Hs) & Hl) & Hb).
  constructor; try lia.
  apply Forall_forall. intros b Hin.
  rewrite forallb_forall in Hb. apply list_elem_of_In in Hin.
  specialize (Hb b Hin). lia.
Qed.

(** ** A caller radius of 1 *)

(** With an effective radius of 0 the four corners of a window coincide. *)
Lemma window_total_zero_radius v width height x y :
  0 <= x < width -> 0 <= y < height -> window_total v width height 0 x y = 0.
Proof.
  intros Hx Hy. unfold window_total.
  replace (Z.max 0 (x - 0)) with x by lia.
  replace (Z.max 0 (y - 0)) with y by lia.
  replace (Z.min (width - 1) (x + 0)) with x by lia.
  replace (Z.min (height - 1) (y + 0)) with y by lia.
  lia.
Qed.

(** [mul] is then [1.f / 0], an infinity, and [0 * mul] is a NaN. *)
Lemma average_zero_radius : average 0 0 = unrepresentable S754_nan mod 256.
Proof. reflexivity. Qed.

Lemma box_pass_zero_radius width height c d :
  0 < width -> 0 < height ->
  Z.of_nat (length d) = width * 4 * height ->
  box_pass width height 0 c d
  = imap (fun i old => if Z.of_nat i mod 4 =? c then average 0 0 else old) d.
Proof.
  intros Hw Hh Hlen. unfold box_pass, box_pass_upto.
  apply imap_ext. intros i old Hi. apply lookup_lt_Some in Hi.
  unfold box_byte.
  destruct (byte_index_decompose width (Z.of_nat i) Hw ltac:(lia))
    as (Hk & Hx & Hy & _).
  assert (Hyh : Z.of_nat i / 4 / width < height).
  { apply Z.div_lt_upper_bound; [lia |].
    apply Z.div_lt_upper_bound; lia. }
  destruct (Z.of_nat i mod 4 =? c); simpl; [| reflexivity].
  replace (in_inset width height 0 (Z.of_nat i / 4 mod width) (Z.of_nat i / 4 / width))
    with true by (symmetry; apply in_inset_true; lia).
  unfold done_before.
  destruct (Z.ltb_spec (Z.of_nat i / 4 / width) height); [| lia].
  simpl. rewrite window_total_zero_radius by lia. reflexivity.
Qed.

Lemma box_iteration_zero_radius width height d :
  0 < width -> 0 < height ->
  Z.of_nat (length d) = width * 4 * height ->
  box_iteration width height 0 d = (fun _ => average 0 0) <$> d.
Proof.
  intros Hw Hh Hlen. unfold box_iteration. simpl.
  rewrite (box_pass_zero_radius width height 0 d) by assumption.
  rewrite (box_pass_zero_radius width height 1) by (rewrite ?length_imap; assumption).
  rewrite (box_pass_zero_radius width height 2) by (rewrite ?length_imap; assumption).
  rewrite (box_pass_zero_radius width height 3) by (rewrite ?length_imap; assumption).
  apply list_eq. intros i.
  rewrite !list_lookup_imap, list_lookup_fmap.
  destruct (d !! i) as [old |]; simpl; [| reflexivity].
  f_equal.
  pose proof (Z.mod_pos_bound (Z.of_nat i) 4 ltac:(lia)).
  destruct (Z.eqb_spec (Z.of_nat i mod 4) 0), (Z.eqb_spec (Z.of_nat i mod 4) 1),
           (Z.eqb_spec (Z.of_nat i mod 4) 2), (Z.eqb_spec (Z.of_nat i mod 4) 3);
    try reflexivity; lia.
Qed.

(** Every byte of the surface is overwritten with the conversion of a NaN. *)
Lemma surface_blur_radius_one garbage width height d :
  well_formed width height d ->
  surface_blur garbage width height d 1
  = Some ((fun _ => unrepresentable S754_nan mod 256) <$> d).
Proof.
  intros Hwf.
  rewrite surface_blur_int_radius by (assumption || (unfold INT_MAX; lia)).
  destruct Hwf as [Hw Hh _ Hlen _].
  change (1 - 1) with 0. unfold box_blur.
  rewrite !(box_iteration_zero_radius width height)
    by (rewrite ?box_iteration_length, ?length_fmap; assumption).
  rewrite <- !list_fmap_compose. rewrite average_zero_radius. reflexivity.
Qed.

(** * The claims *)

(** C1, as amended. After the pass of channel [c] with a caller radius of at
    least 2 ([er = radius - 1]), the channel byte of every inset pixel is
    the conversion to [unsigned char] of the [double] product [tot * mul],
    where [tot] is the four-term total [T] of the prefix sums of the channel
    at the start of the pass at the clamped corners, taken as a 32-bit
    [int], and [mul] is the single-precision quotient [1.f / (2 er)^2]
    widened to [double]. ([prefix_sum_rec] is the recurrence of S.) *)
Theorem channel_pass_bytes width height radius c s :
  well_formed width height (src s) ->
  Z.of_nat (length (precalc s)) = width * height ->
  2 <= radius -> 0 <= c < 4 ->
  exists s',
    blur_channel width height (radius - 1) (mul (radius - 1)) c s = Some s'
    /\ forall x y,
         radius - 1 <= x < width - (radius - 1) ->
         radius - 1 <= y < height - (radius - 1) ->
         let T := window_total (byte_at width (src s) c) width height
                    (radius - 1) x y in
         byte_at width (src s') c x y
         = uchar_of_double
             (SFmul 53 1024 (double_of_int (to_int T)) (mul (radius - 1))).
Proof.
  intros [Hw Hh Hsize Hlen _] Hcells Hr Hc.
  destruct (blur_channel_ok width height (radius - 1) c s)
    as (s' & Hrun & Hsrc & _); try assumption; try lia.
  exists s'. split; [assumption |].
  intros x y Hx Hy T. rewrite Hsrc.
  rewrite box_pass_inset; try assumption; try lia.
  - reflexivity.
  - apply in_inset_true. lia.
Qed.

(** C3, as amended. The radius that counts is the caller's value as the
    code reads it, cut to an [int]: when that is at least 2 the call
    returns, every byte of a pixel outside the inset rectangle of
    [er = (int) radius - 1] is what it was, and when that inset is empty the
    whole buffer is unchanged. *)
Theorem border_unchanged garbage width height d radius :
  well_formed width height d -> 2 <= to_int radius ->
  let er := to_int radius - 1 in
  exists out,
    surface_blur garbage width height d radius = Some out
    /\ (forall x y c,
          0 <= x < width -> 0 <= y < height -> 0 <= c < 4 ->
          x < er \/ width - er <= x \/ y < er \/ height - er <= y ->
          out !! Z.to_nat (4 * (y * width + x) + c)
          = d !! Z.to_nat (4 * (y * width + x) + c))
    /\ (width - er <= er \/ height - er <= er -> out = d).
Proof.
  intros Hwf Hr er. pose proof Hwf as [Hw Hh _ _ _].
  exists (box_blur width height er d).
  split; [apply surface_blur_box_blur; [assumption | lia] |].
  split.
  - intros x y c Hx Hy Hc Hout.
    apply box_blur_outside; try assumption; try lia.
    destruct (in_inset width height er x y) eqn:Hin; [| reflexivity].
    apply in_inset_true in Hin. lia.
  - intros He. apply box_blur_empty; assumption.
Qed.

(** C4. The call is three iterations of the channel passes 0, 1, 2, 3 in
    that order. The record of its accesses to the surface is that of twelve
    passes, 0, 1, 2, 3 three times over; the record of a pass is the reads
    of the precomputation (every byte of the channel) followed by the
    writes of the blur step (the inset bytes of the channel), so a channel
    is finished before the next one begins; and each pass reads, and takes
    its prefix sums from, the bytes that the passes before it have left.
    The radius is the caller's, as an [int] at least 1. *)
Theorem passes_in_order garbage width height d radius :
  well_formed width height d -> 1 <= to_int radius ->
  let er := to_int radius - 1 in
  let pass c bytes := box_pass width height er c bytes in
  let iteration bytes := pass 3 (pass 2 (pass 1 (pass 0 bytes))) in
  surface_blur_log garbage width height d radius
  = Some (iteration (iteration (iteration d)),
          accesses width height er [0; 1; 2; 3; 0; 1; 2; 3; 0; 1; 2; 3] d)
  /\ surface_blur garbage width height d radius
     = fst <$> surface_blur_log garbage width height d radius.
Proof.
  intros Hwf Hr er pass iteration. split.
  - apply surface_blur_log_ok; assumption.
  - symmetry. apply surface_blur_log_erase.
Qed.

(** C5, as amended. Everything is computed from [er = (int) radius - 1],
    one less than the caller's value cut to an [int]: when that value is at
    least 1 the call is the blur of effective radius [er], whose passes
    rewrite the pixels [er <= x < width - er], [er <= y < height - er], with
    the window corners at distance [er] (clamped) and, as multiplier, the
    single-precision quotient [1.f / ((er * 2) * (er * 2))] widened to
    [double]. *)
Theorem effective_radius garbage width height d radius :
  well_formed width height d -> 1 <= to_int radius ->
  let er := to_int radius - 1 in
  surface_blur garbage width height d radius = Some (box_blur width height er d)
  /\ forall c bytes x y,
       Z.of_nat (length bytes) = width * 4 * height ->
       0 <= c < 4 -> 0 <= x < width -> 0 <= y < height ->
       let S := prefix_sum (byte_at width bytes c) in
       let l := Z.max 0 (x - er) in
       let t := Z.max 0 (y - er) in
       let r := Z.min (width - 1) (x + er) in
       let b := Z.min (height - 1) (y + er) in
       byte_at width (box_pass width height er c bytes) c x y
       = if (er <=? x) && (x <? width - er) && (er <=? y) && (y <? height - er)
         then uchar_of_double
                (SFmul 53 1024
                   (double_of_int (to_int (S r b + S l t - S l b - S r t)))
                   (double_of_float
                      (SFdiv 24 128 (SFone 24 128)
                         (float_of_int (to_int (to_int (er * 2) * to_int (er * 2)))))))
         else byte_at width bytes c x y.
Proof.
  intros Hwf Hr er. split; [apply surface_blur_box_blur; assumption |].
  destruct Hwf as [Hw Hh _ _ _].
  intros c bytes x y Hlen Hc Hx Hy S l t r b.
  change ((er <=? x) && (x <? width - er) && (er <=? y) && (y <? height - er))
    with (in_inset width height er x y).
  destruct (in_inset width height er x y) eqn:Hin.
  - rewrite box_pass_inset; try assumption; [reflexivity | subst er; lia].
  - unfold byte_at.
    rewrite box_pass_outside by (assumption || lia || (right; assumption)).
    reflexivity.
Qed.

(** C6, as amended. For a well-formed buffer and a caller radius whose
    value as an [int] is at least 1, no load and no store of the call falls
    outside the bytes of the surface or outside the [width * height] cells
    of the table: the call returns, which in this model it does only when
    every access is in bounds, and the buffer keeps its size. *)
Theorem no_access_out_of_bounds garbage width height d radius :
  well_formed width height d -> 1 <= to_int radius ->
  exists out,
    surface_blur garbage width height d radius = Some out
    /\ length out = length d.
Proof.
  intros Hwf Hr. exists (box_blur width height (to_int radius - 1) d).
  split; [apply surface_blur_box_blur; assumption |].
  apply box_blur_length.
Qed.

(** C7, as amended. Two runs on buffers with the same bytes, the same
    dimensions and the same radius, whose value as an [int] is at least 1,
    both return, and they give the same bytes, whatever the two fresh tables
    contained. *)
Theorem deterministic garbage1 garbage2 width height d1 d2 radius :
  well_formed width height d1 -> 1 <= to_int radius -> d1 = d2 ->
  exists out,
    surface_blur garbage1 width height d1 radius = Some out
    /\ surface_blur garbage2 width height d2 radius = Some out.
Proof.
  intros Hwf Hr <-. exists (box_blur width height (to_int radius - 1) d1).
  split; apply surface_blur_box_blur; assumption.
Qed.

(** C9, as amended. With a caller radius of at least 2 the clamps of the
    window corners never act at an inset pixel, the four-term total is the
    sum of the channel over the [2 er] x [2 er] rectangle
    [x - er + 1 .. x + er] x [y - er + 1 .. y + er], and the byte written
    is the blur step's average of that total: no rewritten pixel gets the
    average of a cut window. *)
Theorem inset_windows_are_full width height radius c s :
  well_formed width height (src s) ->
  Z.of_nat (length (precalc s)) = width * height ->
  2 <= radius -> 0 <= c < 4 ->
  let er := radius - 1 in
  let v := byte_at width (src s) c in
  exists s',
    blur_channel width height er (mul er) c s = Some s'
    /\ forall x y,
         er <= x < width - er -> er <= y < height - er ->
         (if x <? er then 0 else x - er) = x - er
         /\ (if y <? er then 0 else y - er) = y - er
         /\ (if width <=? x + er then width - 1 else x + er) = x + er
         /\ (if height <=? y + er then height - 1 else y + er) = y + er
         /\ window_total v width height er x y
            = rect_sum v (x - er + 1) (x + er) (y - er + 1) (y + er)
         /\ byte_at width (src s') c x y
            = average er (rect_sum v (x - er + 1) (x + er) (y - er + 1) (y + er)).
Proof.
  intros [Hw Hh Hsize Hlen _] Hcells Hr Hc er v.
  destruct (blur_channel_ok width height er c s)
    as (s' & Hrun & Hsrc & _); try assumption; try (subst er; lia).
  exists s'. split; [assumption |].
  intros x y Hx Hy.
  assert (Hwin : window_total v width height er x y
                 = rect_sum v (x - er + 1) (x + er) (y - er + 1) (y + er)).
  { unfold window_total.
    replace (Z.max 0 (x - er)) with (x - er) by lia.
    replace (Z.max 0 (y - er)) with (y - er) by lia.
    replace (Z.min (width - 1) (x + er)) with (x + er) by lia.
    replace (Z.min (height - 1) (y + er)) with (y + er) by lia.
    apply prefix_sum_window; subst er; lia. }
  rewrite !clamp_low, !clamp_high.
  repeat split; try lia; try assumption.
  rewrite Hsrc, <- Hwin.
  apply box_pass_inset; try assumption; try (subst er; lia).
  apply in_inset_true. lia.
Qed.

(** C10. After the precomputation step every cell of the table is the
    inclusive prefix sum of the channel modulo 2^32, and the [int] total of
    the blur step is the sum over the window whenever that sum is below
    2^31, however large the prefix sums are. *)
Theorem prefix_sums_modulo width height c s :
  well_formed width height (src s) ->
  Z.of_nat (length (precalc s)) = width * height ->
  0 <= c < 4 ->
  let v := byte_at width (src s) c in
  exists s',
    precompute width height c s = Some s'
    /\ (forall x y,
          0 <= x < width -> 0 <= y < height ->
          precalc s' !! Z.to_nat (x + y * width)
          = Some (prefix_sum v x y mod 2 ^ 32))
    /\ (forall l t r b,
          0 <= l <= r -> r < width -> 0 <= t <= b -> b < height ->
          rect_sum v (l + 1) r (t + 1) b < 2 ^ 31 ->
          window_tot (precalc s') width l t r b
          = Some (rect_sum v (l + 1) r (t + 1) b)).
Proof.
  intros [Hw Hh Hsize Hlen Hbytes] Hcells Hc v.
  destruct (precompute_ok width height c s) as (s' & Hrun & _ & _ & Htab);
    try assumption.
  exists s'. split; [assumption |]. split.
  - intros x y Hx Hy.
    pose proof (table_cell width height v (precalc s') x y Htab Hx Hy) as Hload.
    unfold load in Hload.
    destruct (Z.leb_spec 0 (x + y * width)); [exact Hload | discriminate].
  - intros l t r b Hl Hr Ht Hb Hsum.
    rewrite (window_tot_table width height v) by (assumption || lia).
    rewrite prefix_sum_window by lia.
    rewrite to_int_small; [reflexivity |].
    assert (0 <= rect_sum v (l + 1) r (t + 1) b).
    { apply rect_sum_nonneg. intros x y. apply byte_at_range. assumption. }
    unfold INT_MAX. lia.
Qed.


(** C2. With a caller radius of 1 the buffer is not left as it was. The
    effective radius is 0, so the inset is the whole surface, [mul] is
    [1.f / 0], every total is 0, and every byte is overwritten with the
    conversion of the NaN [0 * mul]: bytes that differed are equal after
    the call. *)
Theorem radius_one_overwrites garbage :
  surface_blur garbage 2 1 [10; 20; 30; 40; 50; 60; 70; 80] 1
  = Some (repeat (unrepresentable S754_nan mod 256) 8)
  /\ surface_blur garbage 2 1 [10; 20; 30; 40; 50; 60; 70; 80] 1
     <> Some [10; 20; 30; 40; 50; 60; 70; 80].
Proof.
  rewrite surface_blur_radius_one by (apply well_formedb_true; reflexivity).
  split; [reflexivity |].
  simpl. intros Heq. injection Heq as H0 H1 _. lia.
Qed.

(** * Further properties of the blur *)

(** ** The bytes stay bytes *)

Lemma uchar_of_double_range d : 0 <= uchar_of_double d < 256.
Proof.
  unfold uchar_of_double.
  destruct (trunc_double d) as [t |]; [| apply Z.mod_pos_bound; lia].
  destruct (Z.leb_spec 0 t), (Z.leb_spec t 255); simpl;
    try (apply Z.mod_pos_bound; lia); lia.
Qed.

Lemma box_pass_bytes width height er c d :
  Forall (fun b => 0 <= b < 256) d ->
  Forall (fun b => 0 <= b < 256) (box_pass width height er c d).
Proof.
  intros Hd. apply Forall_lookup. intros i b Hi.
  unfold box_pass in Hi. rewrite box_pass_upto_lookup in Hi.
  destruct (d !! i) as [old |] eqn:Hold; simpl in Hi; [| discriminate].
  injection Hi as <-. unfold box_byte.
  destruct (_ && _); [apply uchar_of_double_range |].
  exact (proj1 (Forall_lookup _ d) Hd _ _ Hold).
Qed.

Lemma box_blur_bytes width height er d :
  Forall (fun b => 0 <= b < 256) d ->
  Forall (fun b => 0 <= b < 256) (box_blur width height er d).
Proof.
  intros Hd. unfold box_blur, box_iteration. simpl.
  repeat apply box_pass_bytes. assumption.
Qed.

(** X1. For a caller radius whose value as an [int] is at least 1, the call
    maps a well-formed surface to a well-formed surface of the same
    dimensions: the length is kept and every byte written is in 0..255, so
    the call can be applied again to its result. *)
Theorem blur_keeps_well_formed garbage width height d radius :
  well_formed width height d -> 1 <= to_int radius ->
  exists out,
    surface_blur garbage width height d radius = Some out
    /\ well_formed width height out.
Proof.
  intros Hwf Hr. exists (box_blur width height (to_int radius - 1) d).
  split; [apply surface_blur_box_blur; assumption |].
  destruct Hwf as [Hw Hh Hsize Hlen Hbytes].
  constructor; try assumption.
  - rewrite box_blur_length. assumption.
  - apply box_blur_bytes. assumption.
Qed.

(** ** The channels do not mix *)

Lemma box_pass_byte width height er c' d c x y :
  0 < width -> 0 < height ->
  Z.of_nat (length d) = width * 4 * height ->
  0 <= c < 4 -> 0 <= er ->
  0 <= x < width -> 0 <= y < height ->
  byte_at width (box_pass width height er c' d) c x y
  = if (c =? c') && in_inset width height er x y
    then average er (window_total (byte_at width d c) width height er x y)
    else byte_at width d c x y.
Proof.
  intros Hw Hh Hlen Hc Her Hx Hy.
  destruct (Z.eqb_spec c c') as [<- | Hne]; simpl.
  - destruct (in_inset width height er x y) eqn:Hin.
    + apply box_pass_inset; assumption.
    + unfold byte_at.
      rewrite box_pass_outside by (assumption || lia || (right; assumption)).
      reflexivity.
  - unfold byte_at.
    rewrite box_pass_outside by (assumption || lia || (left; assumption)).
    reflexivity.
Qed.

Lemma prefix_sum_ext v1 v2 x y :
  (forall i j, 0 <= i <= x -> 0 <= j <= y -> v1 i j = v2 i j) ->
  prefix_sum v1 x y = prefix_sum v2 x y.
Proof.
  intros H. unfold prefix_sum, rect_sum.
  apply sum_between_ext. intros j Hj.
  apply sum_between_ext. intros i Hi. apply H; assumption.
Qed.

Lemma window_total_ext v1 v2 width height er x y :
  (forall i j, 0 <= i < width -> 0 <= j < height -> v1 i j = v2 i j) ->
  0 <= er -> 0 <= x < width -> 0 <= y < height ->
  window_total v1 width height er x y = window_total v2 width height er x y.
Proof.
  intros H Her Hx Hy. unfold window_total.
  rewrite !(prefix_sum_ext v1 v2); [reflexivity | ..];
    intros i j Hi Hj; apply H; lia.
Qed.

Lemma box_pass_same_channel width height er c' c d1 d2 :
  0 < width -> 0 < height ->
  Z.of_nat (length d1) = width * 4 * height ->
  Z.of_nat (length d2) = width * 4 * height ->
  0 <= c < 4 -> 0 <= er ->
  same_channel width height c d1 d2 ->
  same_channel width height c
    (box_pass width height er c' d1) (box_pass width height er c' d2).
Proof.
  intros Hw Hh Hl1 Hl2 Hc Her Hsame x y Hx Hy.
  rewrite !box_pass_byte by assumption.
  destruct ((c =? c') && in_inset width height er x y); [| apply Hsame; assumption].
  f_equal. apply window_total_ext; assumption.
Qed.

Lemma box_iteration_same_channel width height er c d1 d2 :
  0 < width -> 0 < height ->
  Z.of_nat (length d1) = width * 4 * height ->
  Z.of_nat (length d2) = width * 4 * height ->
  0 <= c < 4 -> 0 <= er ->
  same_channel width height c d1 d2 ->
  same_channel width height c
    (box_iteration width height er d1) (box_iteration width height er d2).
Proof.
  intros Hw Hh Hl1 Hl2 Hc Her Hsame. unfold box_iteration. simpl.
  repeat (apply box_pass_same_channel;
          try assumption; try (rewrite ?box_pass_length; assumption)).
Qed.

(** X2. No byte of one channel depends on another channel: when two
    well-formed surfaces of the same size hold the same bytes in channel
    [c] and the caller radius, as an [int], is at least 1, the two results
    hold the same bytes in channel [c], whatever the other three channels
    contain. *)
Theorem channels_are_independent garbage1 garbage2 width height d1 d2 radius c :
  well_formed width height d1 -> well_formed width height d2 ->
  1 <= to_int radius -> 0 <= c < 4 ->
  same_channel width height c d1 d2 ->
  exists out1 out2,
    surface_blur garbage1 width height d1 radius = Some out1
    /\ surface_blur garbage2 width height d2 radius = Some out2
    /\ same_channel width height c out1 out2.
Proof.
  intros Hwf1 Hwf2 Hr Hc Hsame.
  exists (box_blur width height (to_int radius - 1) d1),
         (box_blur width height (to_int radius - 1) d2).
  split; [apply surface_blur_box_blur; assumption |].
  split; [apply surface_blur_box_blur; assumption |].
  destruct Hwf1 as [Hw Hh _ Hl1 _]. destruct Hwf2 as [_ _ _ Hl2 _].
  unfold box_blur.
  repeat (apply box_iteration_same_channel;
          try assumption; try lia;
          try (rewrite ?box_iteration_length; assumption)).
Qed.

(** ** A caller radius of 0 or less *)

Lemma blur_body_negative width height er m s :
  0 < width -> 0 < height -> er < 0 ->
  blur_body width height er m er er s = None.
Proof.
  intros Hw Hh Her. unfold blur_body.
  destruct (Z.ltb_spec er er); [lia |].
  destruct (Z.leb_spec width (er + er)); [lia |].
  destruct (Z.leb_spec height (er + er)); [lia |].
  unfold window_tot, load.
  destruct (Z.leb_spec 0 (er + er + (er + er) * width)); [nia |].
  reflexivity.
Qed.

Lemma blur_step_negative width height er c m s :
  0 < width -> 0 < height -> er < 0 ->
  blur_step width height er c m s = None.
Proof.
  intros Hw Hh Her. unfold blur_step.
  rewrite for_loop_step by lia. rewrite (for_loop_step _ er (width - er)) by lia.
  rewrite blur_body_negative by assumption. reflexivity.
Qed.

Lemma blur_channel_negative width height er c m s :
  0 < width -> 0 < height ->
  Z.of_nat (length (src s)) = width * 4 * height ->
  Z.of_nat (length (precalc s)) = width * height ->
  0 <= c < 4 -> er < 0 ->
  blur_channel width height er m c s = None.
Proof.
  intros Hw Hh Hlen Hcells Hc Her. unfold blur_channel.
  destruct (precompute_ok width height c s) as (s1 & -> & _); try assumption.
  cbn [mbind option_bind]. apply blur_step_negative; assumption.
Qed.

(** X3. With a caller radius whose value [r] as an [int] is 0 or less, and
    small enough in size for [2 (1 - r) (width + 1)] to be an [int] (so that
    neither [--radius] nor the index below wraps around), the call faults on
    a well-formed surface: the effective radius [er = r - 1] is negative,
    the first pixel the blur step visits is [(er, er)], and the first cell
    it reads is at the negative index [2 er + 2 er * width] of the table. *)
Theorem nonpositive_radius_faults garbage width height d radius :
  well_formed width height d ->
  to_int radius <= 0 -> 2 * (1 - to_int radius) * (width + 1) <= INT_MAX ->
  surface_blur garbage width height d radius = None.
Proof.
  intros [Hw Hh Hsize Hlen _] Hr Hidx. unfold surface_blur, MAX_ITERATIONS.
  cbv zeta.
  rewrite (to_int_small (to_int radius - 1)) by (unfold INT_MAX in *; nia).
  set (s := {| src := d; precalc := _; pix := 0; pre := 0 |}).
  assert (Hcells : Z.of_nat (length (precalc s)) = width * height).
  { subst s. simpl. rewrite length_map, length_seq.
    rewrite to_int_small by (unfold INT_MAX in *; nia). lia. }
  rewrite for_loop_step by lia. rewrite (for_loop_step _ 0 4) by lia.
  rewrite blur_channel_negative by (assumption || lia). reflexivity.
Qed.

(** ** Channels of zeros *)

Lemma all_between_spec f n :
  forall lo, all_between f lo n = true ->
  forall i, lo <= i < lo + Z.of_nat n -> f i = true.
Proof.
  induction n as [| n IH]; intros lo H i Hi; [lia |].
  simpl in H. apply andb_true_iff in H as [H0 H1].
  destruct (Z.eq_dec i lo) as [-> | Hne]; [assumption |].
  apply (IH (lo + 1)); [assumption | lia].
Qed.

(** For every effective radius that leaves an inset in a well-formed
    surface the multiplier is an ordinary number. *)
Lemma mul_finite_check :
  all_between (fun er => is_finite (mul er)) 1 (Z.to_nat 16383) = true.
Proof. vm_compute. reflexivity. Qed.

Lemma average_zero er : 1 <= er <= 16383 -> average er 0 = 0.
Proof.
  intros Her.
  pose proof (all_between_spec _ _ _ mul_finite_check er ltac:(lia)) as Hfin.
  unfold average. cbv beta in Hfin.
  destruct (mul er) as [| | | sg m e]; try discriminate.
  reflexivity.
Qed.

Lemma sum_upto_zero n : sum_upto (fun _ => 0) n = 0.
Proof. induction n as [| n IH]; simpl; lia. Qed.

Lemma prefix_sum_zero x y : prefix_sum (fun _ _ => 0) x y = 0.
Proof.
  unfold prefix_sum, rect_sum, sum_between.
  rewrite (sum_upto_ext _ (fun _ => 0)); [apply sum_upto_zero |].
  intros j _. apply sum_upto_zero.
Qed.

Lemma inset_radius_bound width height er x y :
  2 * width * height <= INT_MAX -> 0 <= er ->
  in_inset width height er x y = true -> er <= 16383.
Proof.
  unfold INT_MAX. intros Hsize Her Hin. apply in_inset_true in Hin.
  assert (2 * er + 1 <= width) by lia.
  assert (2 * er + 1 <= height) by lia.
  assert ((2 * er + 1) * (2 * er + 1) <= width * height) by nia.
  nia.
Qed.

Lemma box_pass_zero_channel width height er c' c d :
  0 < width -> 0 < height -> 2 * width * height <= INT_MAX ->
  Z.of_nat (length d) = width * 4 * height ->
  0 <= c < 4 -> 1 <= er ->
  same_channel width height c d [] ->
  same_channel width height c (box_pass width height er c' d) [].
Proof.
  intros Hw Hh Hsize Hlen Hc Her Hzero x y Hx Hy.
  rewrite box_pass_byte by (assumption || lia).
  destruct ((c =? c') && in_inset width height er x y) eqn:Hcond;
    [| apply Hzero; assumption].
  apply andb_true_iff in Hcond as [_ Hin].
  rewrite (window_total_ext _ (fun _ _ => 0)) by (assumption || lia).
  unfold window_total. rewrite !prefix_sum_zero. simpl.
  apply average_zero.
  pose proof (inset_radius_bound width height er x y Hsize ltac:(lia) Hin). lia.
Qed.

(** X4. A channel of zeros stays a channel of zeros for every caller radius
    whose value as an [int] is at least 2: when every byte of channel [c] is
    0 before the call, every byte of channel [c] is 0 after it. *)
Theorem zero_channel_stays_zero garbage width height d radius c :
  well_formed width height d -> 2 <= to_int radius -> 0 <= c < 4 ->
  (forall x y, 0 <= x < width -> 0 <= y < height -> byte_at width d c x y = 0) ->
  exists out,
    surface_blur garbage width height d radius = Some out
    /\ forall x y, 0 <= x < width -> 0 <= y < height ->
         byte_at width out c x y = 0.
Proof.
  intros Hwf Hr Hc Hzero.
  exists (box_blur width height (to_int radius - 1) d).
  split; [apply surface_blur_box_blur; [assumption | lia] |].
  destruct Hwf as [Hw Hh Hsize Hlen _].
  change (same_channel width height c (box_blur width height (to_int radius - 1) d) []).
  unfold box_blur, box_iteration. simpl.
  repeat (apply box_pass_zero_channel;
          try assumption; try lia;
          try (rewrite ?box_pass_length; assumption)).
Qed.

(** X6. With a caller radius of 1 every byte of every well-formed surface is
    overwritten with one and the same value, the conversion of the NaN
    [0 * (1.f / 0)] to [unsigned char]: the picture is lost. *)
Theorem radius_one_flattens garbage width height d :
  well_formed width height d ->
  exists out,
    surface_blur garbage width height d 1 = Some out
    /\ length out = length d
    /\ forall i b, out !! i = Some b -> b = unrepresentable S754_nan mod 256.
Proof.
  intros Hwf. eexists. split; [apply surface_blur_radius_one; assumption |].
  split; [apply length_fmap |].
  intros i b Hi. rewrite list_lookup_fmap in Hi.
  destruct (d !! i); simpl in Hi; [| discriminate].
  injection Hi as <-. reflexivity.
Qed.

(** ** Radii whose window area is 4, 16 or 64 *)

Lemma sum_upto_const v n : sum_upto (fun _ => v) n = v * Z.of_nat n.
Proof. induction n as [| n IH]; simpl; lia. Qed.

Lemma sum_upto_le f M n :
  (forall i, 0 <= i < Z.of_nat n -> f i <= M) -> sum_upto f n <= M * Z.of_nat n.
Proof.
  induction n as [| n IH]; intros H; simpl; [lia |].
  assert (sum_upto f n <= M * Z.of_nat n) by (apply IH; intros; apply H; lia).
  assert (f (Z.of_nat n) <= M) by (apply H; lia). lia.
Qed.

Lemma rect_sum_const v x0 x1 y0 y1 :
  x0 <= x1 + 1 -> y0 <= y1 + 1 ->
  rect_sum (fun _ _ => v) x0 x1 y0 y1 = v * (x1 + 1 - x0) * (y1 + 1 - y0).
Proof.
  intros Hx Hy. unfold rect_sum, sum_between.
  rewrite (sum_upto_ext _ (fun _ => v * (x1 + 1 - x0))).
  - rewrite sum_upto_const, Z2Nat.id by lia. reflexivity.
  - intros j _. rewrite sum_upto_const, Z2Nat.id by lia. reflexivity.
Qed.

Lemma rect_sum_le v M x0 x1 y0 y1 :
  (forall x y, v x y <= M) -> 0 <= M ->
  x0 <= x1 + 1 -> y0 <= y1 + 1 ->
  rect_sum v x0 x1 y0 y1 <= M * (x1 + 1 - x0) * (y1 + 1 - y0).
Proof.
  intros Hv HM Hx Hy. unfold rect_sum, sum_between.
  etransitivity.
  - apply (sum_upto_le _ (M * (x1 + 1 - x0))). intros j _.
    etransitivity; [apply (sum_upto_le _ M); intros i _; apply Hv |].
    rewrite Z2Nat.id by lia. lia.
  - rewrite Z2Nat.id by lia. lia.
Qed.

Lemma rect_sum_ext v1 v2 x0 x1 y0 y1 :
  (forall x y, x0 <= x <= x1 -> y0 <= y <= y1 -> v1 x y = v2 x y) ->
  rect_sum v1 x0 x1 y0 y1 = rect_sum v2 x0 x1 y0 y1.
Proof.
  intros H. unfold rect_sum.
  apply sum_between_ext. intros y Hy.
  apply sum_between_ext. intros x Hx. apply H; assumption.
Qed.

(** At an inset pixel the four-term total is the sum over the full window. *)
Lemma window_total_inset v width height er x y :
  1 <= er -> in_inset width height er x y = true ->
  window_total v width height er x y
  = rect_sum v (x - er + 1) (x + er) (y - er + 1) (y + er).
Proof.
  intros Her Hin. apply in_inset_true in Hin. unfold window_total.
  replace (Z.max 0 (x - er)) with (x - er) by lia.
  replace (Z.max 0 (y - er)) with (y - er) by lia.
  replace (Z.min (width - 1) (x + er)) with (x + er) by lia.
  replace (Z.min (height - 1) (y + er)) with (y + er) by lia.
  apply prefix_sum_window; lia.
Qed.

(** The product and its conversion, evaluated for every total that a
    window of 4, 16 or 64 bytes can have. *)
Lemma average_check_1 :
  (let m := mul 1 in
   all_between
     (fun T => uchar_of_double (SFmul 53 1024 (double_of_int (to_int T)) m) =? T / 4)
     0 (Z.to_nat 1021)) = true.
Proof. vm_compute. reflexivity. Qed.

Lemma average_check_2 :
  (let m := mul 2 in
   all_between
     (fun T => uchar_of_double (SFmul 53 1024 (double_of_int (to_int T)) m) =? T / 16)
     0 (Z.to_nat 4081)) = true.
Proof. vm_compute. reflexivity. Qed.

Lemma average_check_4 :
  (let m := mul 4 in
   all_between
     (fun T => uchar_of_double (SFmul 53 1024 (double_of_int (to_int T)) m) =? T / 64)
     0 (Z.to_nat 16321)) = true.
Proof. vm_compute. reflexivity. Qed.

Lemma average_exact er T :
  er = 1 \/ er = 2 \/ er = 4 ->
  0 <= T <= 255 * (2 * er) ^ 2 ->
  average er T = T / (2 * er) ^ 2.
Proof.
  intros [-> | [-> | ->]] HT; unfold average; apply Z.eqb_eq.
  - exact (all_between_spec _ _ _ average_check_1 T ltac:(lia)).
  - exact (all_between_spec _ _ _ average_check_2 T ltac:(lia)).
  - exact (all_between_spec _ _ _ average_check_4 T ltac:(lia)).
Qed.

(** X5. With a caller radius of 2, 3 or 5 (windows of 4, 16 or 64 pixels,
    whose reciprocal is a power of two) a channel pass stores the exact
    truncated mean: the byte of every inset pixel becomes the sum of the
    channel over its window divided by the window area, rounded down. *)
Theorem small_radius_mean_is_exact width height radius c s :
  well_formed width height (src s) ->
  Z.of_nat (length (precalc s)) = width * height ->
  radius = 2 \/ radius = 3 \/ radius = 5 -> 0 <= c < 4 ->
  let er := radius - 1 in
  let v := byte_at width (src s) c in
  exists s',
    blur_channel width height er (mul er) c s = Some s'
    /\ forall x y,
         er <= x < width - er -> er <= y < height - er ->
         byte_at width (src s') c x y
         = rect_sum v (x - er + 1) (x + er) (y - er + 1) (y + er) / (2 * er) ^ 2.
Proof.
  intros [Hw Hh Hsize Hlen Hbytes] Hcells Hr Hc er v.
  assert (Her : er = 1 \/ er = 2 \/ er = 4) by (subst er; lia).
  destruct (blur_channel_ok width height er c s)
    as (s' & Hrun & Hsrc & _); try assumption; try lia.
  exists s'. split; [assumption |].
  intros x y Hx Hy.
  assert (Hin : in_inset width height er x y = true) by (apply in_inset_true; lia).
  rewrite Hsrc, box_pass_inset by (assumption || lia).
  rewrite window_total_inset by (assumption || lia).
  apply average_exact; [assumption |]. split.
  - apply rect_sum_nonneg. intros i j. apply byte_at_range. assumption.
  - etransitivity.
    + apply (rect_sum_le _ 255); try lia.
      intros i j. pose proof (byte_at_range width (src s) c i j Hbytes). fold v in H. lia.
    + nia.
Qed.

(** Two buffers of the size of the surface with the same bytes at every
    pixel are equal. *)
Lemma bytes_ext width height d1 d2 :
  0 < width -> 0 < height ->
  Z.of_nat (length d1) = width * 4 * height ->
  Z.of_nat (length d2) = width * 4 * height ->
  (forall c, 0 <= c < 4 -> same_channel width height c d1 d2) ->
  d1 = d2.
Proof.
  intros Hw Hh Hl1 Hl2 Hsame. apply list_eq. intros i.
  destruct (decide (i < length d1)%nat) as [Hi | Hi].
  - destruct (byte_index_decompose width (Z.of_nat i) Hw ltac:(lia))
      as (Hk & Hx & Hy & Hc).
    assert (Hyh : Z.of_nat i / 4 / width < height).
    { apply Z.div_lt_upper_bound; [lia |].
      apply Z.div_lt_upper_bound; lia. }
    pose proof (Hsame _ Hc _ _ Hx (conj Hy Hyh)) as Heq.
    unfold byte_at in Heq. rewrite <- Hk, Nat2Z.id in Heq.
    destruct (lookup_lt_is_Some_2 d1 i) as [b1 H1]; [lia |].
    destruct (lookup_lt_is_Some_2 d2 i) as [b2 H2]; [lia |].
    rewrite H1, H2 in *. simpl in Heq. congruence.
  - rewrite !lookup_ge_None_2 by lia. reflexivity.
Qed.

Lemma box_pass_uniform width height er c d v :
  0 < width -> 0 < height ->
  Z.of_nat (length d) = width * 4 * height ->
  0 <= v < 256 ->
  (forall i b, d !! i = Some b -> b = v) ->
  er = 1 \/ er = 2 \/ er = 4 ->
  box_pass width height er c d = d.
Proof.
  intros Hw Hh Hlen Hv Hd Her.
  assert (Hbyte : forall c' x y, 0 <= c' < 4 -> 0 <= x < width -> 0 <= y < height ->
                    byte_at width d c' x y = v).
  { intros c' x y Hc' Hx Hy.
    pose proof (cell_index_bound width height x y Hx Hy).
    pose proof (lookup_byte_at width d c' x y ltac:(lia)) as Hl.
    exact (Hd _ _ Hl). }
  apply (bytes_ext width height); try assumption.
  { rewrite box_pass_length. assumption. }
  intros c' Hc' x y Hx Hy.
  rewrite box_pass_byte by (assumption || lia).
  destruct ((c' =? c) && in_inset width height er x y) eqn:Hcond; [| reflexivity].
  apply andb_true_iff in Hcond as [_ Hin].
  pose proof (proj1 (in_inset_true _ _ _ _ _) Hin) as [Hix Hiy].
  rewrite window_total_inset by (assumption || lia).
  rewrite (rect_sum_ext _ (fun _ _ => v)) by (intros; apply Hbyte; lia).
  rewrite rect_sum_const by lia.
  rewrite average_exact; [| assumption | nia].
  rewrite Hbyte by lia.
  replace (v * (x + er + 1 - (x - er + 1)) * (y + er + 1 - (y - er + 1)))
    with (v * (2 * er) ^ 2) by nia.
  apply Z.div_mul. destruct Her as [-> | [-> | ->]]; lia.
Qed.

(** X7. With a caller radius of 2, 3 or 5 a uniform surface is a fixed point
    of the call: when all bytes are equal, the buffer is returned as it
    was. *)
Theorem uniform_is_fixed_at_small_radius garbage width height d v radius :
  well_formed width height d ->
  (forall i b, d !! i = Some b -> b = v) ->
  radius = 2 \/ radius = 3 \/ radius = 5 ->
  surface_blur garbage width height d radius = Some d.
Proof.
  intros Hwf Hd Hr.
  rewrite surface_blur_int_radius by (assumption || (unfold INT_MAX; lia)).
  destruct Hwf as [Hw Hh Hsize Hlen Hbytes].
  assert (Hv : 0 <= v < 256).
  { destruct (lookup_lt_is_Some_2 d 0%nat) as [b Hb]; [nia |].
    rewrite <- (Hd _ _ Hb). exact (proj1 (Forall_lookup _ d) Hbytes _ _ Hb). }
  assert (Her : radius - 1 = 1 \/ radius - 1 = 2 \/ radius - 1 = 4) by lia.
  unfold box_blur, box_iteration. simpl.
  rewrite !(box_pass_uniform width height (radius - 1) _ d v) by assumption.
  reflexivity.
Qed.




(** * [image_surface_get_data] *)

(** ** The array that is filled *)

Lemma array_set_lookup (a : list (option Z)) i v j :
  0 <= i -> (Z.to_nat i <= length a)%nat ->
  array_set a i v !! j
  = if decide (j = Z.to_nat i) then Some (Some v) else a !! j.
Proof.
  intros Hi Hlen. unfold array_set.
  destruct (Nat.ltb_spec (Z.to_nat i) (length a)) as [Hlt | Hge].
  - destruct (decide (j = Z.to_nat i)) as [-> | Hne].
    + apply list_lookup_insert_eq. assumption.
    + apply list_lookup_insert_ne. congruence.
  - replace (Z.to_nat i - length a)%nat with O by lia. simpl.
    destruct (decide (j = Z.to_nat i)) as [-> | Hne].
    + rewrite lookup_app_r by lia.
      replace (Z.to_nat i - length a)%nat with O by lia. reflexivity.
    + destruct (decide (j < length a)%nat).
      * apply lookup_app_l. assumption.
      * rewrite lookup_app_r by lia.
        rewrite (lookup_ge_None_2 a j) by lia.
        destruct (j - length a)%nat as [| m] eqn:Hm; [lia |].
        reflexivity.
Qed.

Lemma get_data_inv_length entry a0 n st :
  0 <= n -> get_data_inv entry a0 n st -> (Z.to_nat n <= length st.1)%nat.
Proof.
  intros Hn [_ Hset _].
  destruct (Z.to_nat n) as [| m] eqn:Hm; [lia |].
  assert (Hl : is_Some (st.1 !! m)) by (rewrite Hset by lia; eauto).
  apply lookup_lt_is_Some_1 in Hl. lia.
Qed.

(** One [Set (ndx++, v)]. *)
Lemma array_set_step entry a0 n bytes v :
  0 <= n -> v = entry (Z.to_nat n) ->
  get_data_inv entry a0 n (bytes, n) ->
  get_data_inv entry a0 (n + 1) (array_set bytes n v, n + 1).
Proof.
  intros Hn -> Hinv.
  pose proof (get_data_inv_length _ _ _ _ Hn Hinv) as Hlen.
  destruct Hinv as [_ Hset Hrest]. simpl in *.
  constructor; simpl; [reflexivity | |].
  - intros j Hj. rewrite array_set_lookup by assumption.
    destruct (decide (j = Z.to_nat n)) as [-> | Hne]; [reflexivity |].
    apply Hset. lia.
  - intros j Hj. rewrite array_set_lookup by assumption.
    destruct (decide (j = Z.to_nat n)) as [-> | Hne]; [lia |].
    apply Hrest. lia.
Qed.

Lemma get_data_pixel_ok entry a0 words row sx x n st pixel :
  0 <= n ->
  load32 words (row + 4 * x + 4 * sx) = Some pixel ->
  (forall k, 0 <= k < 4 -> entry (Z.to_nat (n + k)) = pixel_entry pixel k) ->
  get_data_inv entry a0 n st ->
  exists st', get_data_pixel words row sx x st = Some st'
              /\ get_data_inv entry a0 (n + 4) st'.
Proof.
  intros Hn Hload Hentry Hinv. unfold get_data_pixel.
  rewrite Hload. cbn [mbind option_bind].
  eexists. split; [reflexivity |].
  destruct st as [bytes ndx]. pose proof (gi_ndx _ _ _ _ Hinv) as Hndx.
  simpl in Hndx. subst ndx. cbn [fst snd].
  replace (n + 4) with (n + 1 + 1 + 1 + 1) by lia.
  replace (n + 3) with (n + 1 + 1 + 1) by lia.
  replace (n + 2) with (n + 1 + 1) by lia.
  apply array_set_step; [lia | |].
  { replace (n + 1 + 1 + 1) with (n + 3) by lia. rewrite Hentry by lia. reflexivity. }
  apply array_set_step; [lia | |].
  { replace (n + 1 + 1) with (n + 2) by lia. rewrite Hentry by lia. reflexivity. }
  apply array_set_step; [lia | |].
  { rewrite Hentry by lia. reflexivity. }
  apply array_set_step; [lia | | assumption].
  pose proof (Hentry 0 ltac:(lia)) as H0. rewrite Z.add_0_r in H0.
  rewrite H0. reflexivity.
Qed.

(** ** The pixels that are read *)

Lemma load32_pixel words stride cWidth cHeight x y :
  surface_ok words stride cWidth cHeight ->
  0 <= x < cWidth -> 0 <= y < cHeight ->
  load32 words (to_int (stride * to_int y) + 4 * x)
  = Some (pixel_at words stride x y).
Proof.
  intros [Hw Hh Hal Hst Hsz _ Hlen] Hx Hy.
  unfold INT_MAX in Hsz.
  assert (Hyb : 0 <= stride * y <= stride * cHeight) by nia.
  rewrite (to_int_small y) by (unfold INT_MAX; nia).
  rewrite (to_int_small (stride * y)) by (unfold INT_MAX; lia).
  pose proof (Z.div_mod stride 4 ltac:(lia)) as Hdiv. rewrite Hal in Hdiv.
  assert (Hoff : stride * y + 4 * x = 4 * (stride / 4 * y + x)) by nia.
  unfold load32, pixel_at. rewrite Hoff.
  replace (4 * (stride / 4 * y + x)) with ((stride / 4 * y + x) * 4) by lia.
  rewrite Z.mod_mul, Z.div_mul by lia.
  assert (0 <= stride / 4 * y + x < stride / 4 * cHeight) by nia.
  destruct (Z.leb_spec 0 ((stride / 4 * y + x) * 4)); [| lia].
  simpl.
  destruct (lookup_lt_is_Some_2 words (Z.to_nat (stride / 4 * y + x))) as [p Hp];
    [lia |].
  rewrite Hp. reflexivity.
Qed.

(** ** The loops *)

Lemma get_data_loops words stride cWidth cHeight x0 y0 W H a0 :
  surface_ok words stride cWidth cHeight ->
  0 <= x0 -> 0 <= y0 -> x0 + W <= cWidth -> y0 + H <= cHeight ->
  exists st,
    for_loop 0 H
      (fun y st =>
         let row := to_int (stride * to_int (y + y0)) in
         for_loop 0 W (fun x st => get_data_pixel words row x0 x st) st)
      (a0, 0) = Some st
    /\ get_data_inv (data_entry words stride x0 y0 W) a0
         (4 * (Z.max H 0 * Z.max W 0)) st.
Proof.
  intros Hok Hx0 Hy0 HW HH.
  set (entry := data_entry words stride x0 y0 W).
  assert (Hstart : get_data_inv entry a0 0 (a0, 0)).
  { constructor; simpl; [reflexivity | intros; lia | reflexivity]. }
  destruct (Z.le_gt_cases H 0) as [HH0 | HH0].
  { rewrite for_loop_empty by assumption. eexists. split; [reflexivity |].
    replace (Z.max H 0) with 0 by lia. assumption. }
  replace (Z.max H 0) with H by lia.
  destruct (Z.le_gt_cases W 0) as [HW0 | HW0].
  { replace (Z.max W 0) with 0 by lia.
    destruct (for_loop_inv (fun (_ : Z) st => get_data_inv entry a0 0 st)
                (fun y st =>
                   let row := to_int (stride * to_int (y + y0)) in
                   for_loop 0 W (fun x st => get_data_pixel words row x0 x st) st)
                0 H (a0, 0)) as (st & Hrun & Hinv); [lia | assumption | |].
    - intros y st _ Hst. cbv zeta. rewrite for_loop_empty by assumption. eauto.
    - exists st. split; [assumption |].
      replace (4 * (H * 0)) with 0 by lia. assumption. }
  replace (Z.max W 0) with W by lia.
  destruct (for_loop_inv (fun y st => get_data_inv entry a0 (4 * (y * W)) st)
              (fun y st =>
                 let row := to_int (stride * to_int (y + y0)) in
                 for_loop 0 W (fun x st => get_data_pixel words row x0 x st) st)
              0 H (a0, 0)) as (st & Hrun & Hinv); [lia | assumption | |].
  - intros y st Hy Hst. cbv zeta.
    destruct (for_loop_inv
                (fun x st => get_data_inv entry a0 (4 * (y * W + x)) st)
                (fun x st =>
                   get_data_pixel words (to_int (stride * to_int (y + y0))) x0 x st)
                0 W st) as (st1 & Hrow & H1); [lia | | |].
    + replace (y * W + 0) with (y * W) by lia. assumption.
    + intros x st1 Hx H1.
      destruct (get_data_pixel_ok entry a0 words
                  (to_int (stride * to_int (y + y0))) x0 x (4 * (y * W + x)) st1
                  (pixel_at words stride (x0 + x) (y0 + y)))
        as (st2 & Hb & H2); try assumption.
      * nia.
      * replace (to_int (stride * to_int (y + y0)) + 4 * x + 4 * x0)
          with (to_int (stride * to_int (y + y0)) + 4 * (x0 + x)) by lia.
        replace (y + y0) with (y0 + y) by lia.
        apply (load32_pixel words stride cWidth cHeight); [assumption | lia | lia].
      * intros k Hk. subst entry. unfold data_entry.
        assert (0 <= 4 * (y * W + x) + k) by nia.
        rewrite Z2Nat.id by assumption.
        destruct (byte_index_coords W x y k ltac:(lia) Hk) as (-> & -> & ->).
        reflexivity.
      * exists st2. split; [assumption |].
        replace (4 * (y * W + (x + 1))) with (4 * (y * W + x) + 4) by lia.
        assumption.
    + exists st1. split; [assumption |].
      replace (4 * ((y + 1) * W)) with (4 * (y * W + W)) by lia. assumption.
  - exists st. split; assumption.
Qed.

(** The call, for a surface and a request as above: it returns, with the
    request cut to the surface, the entries of its pixels in row-major
    order and, after them, the array as [Array::New] made it. *)
Lemma image_surface_get_data_ok words stride cWidth cHeight sx sy width height :
  surface_ok words stride cWidth cHeight ->
  request_ok sx sy width height ->
  let W := clip_extent sx width cWidth in
  let H := clip_extent sy height cHeight in
  exists st,
    image_surface_get_data words stride cWidth cHeight sx sy width height
    = Some {| im_data := st.1; im_width := W; im_height := H |}
    /\ get_data_inv (data_entry words stride (Z.max sx 0) (Z.max sy 0) W)
         (array_new (to_int (to_int (width * height) * 4)))
         (4 * (Z.max H 0 * Z.max W 0)) st.
Proof.
  intros Hok (Hsx & Hsy & Hwd & Hht) W H.
  pose proof Hok as [HcW HcH Hal Hst Hsz [Hsi Hhi] Hlen].
  unfold INT_MAX in Hsi, Hhi.
  unfold image_surface_get_data. cbv zeta.
  assert (Hx0 : (if sx <? 0 then 0 else sx) = Z.max sx 0)
    by (destruct (Z.ltb_spec sx 0); lia).
  assert (Hy0 : (if sy <? 0 then 0 else sy) = Z.max sy 0)
    by (destruct (Z.ltb_spec sy 0); lia).
  assert (Hw1 : (if sx <? 0 then to_int (width + sx) else width)
                = width + Z.min sx 0).
  { destruct (Z.ltb_spec sx 0); [| lia].
    rewrite to_int_small by (unfold INT_MAX; lia). lia. }
  assert (Hh1 : (if sy <? 0 then to_int (height + sy) else height)
                = height + Z.min sy 0).
  { destruct (Z.ltb_spec sy 0); [| lia].
    rewrite to_int_small by (unfold INT_MAX; lia). lia. }
  rewrite Hx0, Hy0, Hw1, Hh1.
  assert (Hw2 : (if cWidth <? to_int (Z.max sx 0 + (width + Z.min sx 0))
                 then to_int (cWidth - Z.max sx 0) else width + Z.min sx 0) = W).
  { subst W. unfold clip_extent.
    rewrite (to_int_small (Z.max sx 0 + (width + Z.min sx 0)))
      by (unfold INT_MAX; lia).
    destruct (Z.ltb_spec cWidth (Z.max sx 0 + (width + Z.min sx 0))); [| lia].
    rewrite to_int_small by (unfold INT_MAX; lia). lia. }
  assert (Hh2 : (if cHeight <? to_int (Z.max sy 0 + (height + Z.min sy 0))
                 then to_int (cHeight - Z.max sy 0) else height + Z.min sy 0) = H).
  { subst H. unfold clip_extent.
    rewrite (to_int_small (Z.max sy 0 + (height + Z.min sy 0)))
      by (unfold INT_MAX; lia).
    destruct (Z.ltb_spec cHeight (Z.max sy 0 + (height + Z.min sy 0))); [| lia].
    rewrite to_int_small by (unfold INT_MAX; lia). lia. }
  rewrite Hw2, Hh2.
  destruct (get_data_loops words stride cWidth cHeight (Z.max sx 0) (Z.max sy 0)
              W H (array_new (to_int (to_int (width * height) * 4))))
    as (st & Hrun & Hinv); try assumption; try lia.
  { subst W. unfold clip_extent. lia. }
  { subst H. unfold clip_extent. lia. }
  cbv zeta in Hrun. rewrite Hrun. cbn [mbind option_bind].
  exists st. split; [reflexivity | assumption].
Qed.

(** ** What the caller gets *)


Lemma get_data_entry_lookup words stride cWidth cHeight sx sy width height :
  surface_ok words stride cWidth cHeight ->
  request_ok sx sy width height ->
  exists im,
    image_surface_get_data words stride cWidth cHeight sx sy width height = Some im
    /\ forall x y k,
         0 <= x < im_width im -> 0 <= y < im_height im -> 0 <= k < 4 ->
         im_data im !! Z.to_nat (4 * (y * im_width im + x) + k)
         = Some (Some (pixel_entry
                         (pixel_at words stride (Z.max sx 0 + x) (Z.max sy 0 + y)) k)).
Proof.
  intros Hok Hreq.
  destruct (image_surface_get_data_ok words stride cWidth cHeight sx sy width height
              Hok Hreq) as (st & Hrun & Hinv).
  eexists. split; [exact Hrun |]. simpl.
  intros x y k Hx Hy Hk.
  set (W := clip_extent sx width cWidth) in *.
  set (H := clip_extent sy height cHeight) in *.
  assert (0 <= y * W + x < H * W) by nia.
  rewrite (gi_set _ _ _ _ Hinv) by lia.
  unfold data_entry. rewrite Z2Nat.id by lia.
  destruct (byte_index_coords W x y k ltac:(lia) Hk) as (-> & -> & ->).
  reflexivity.
Qed.


Lemma length_by_lookup (l : list (option Z)) n :
  (forall j, (j < n)%nat -> is_Some (l !! j)) ->
  (forall j, (n <= j)%nat -> l !! j = None) ->
  length l = n.
Proof.
  intros Hlt Hge.
  destruct (Nat.lt_trichotomy (length l) n) as [H | [H | H]]; [| assumption |].
  - apply Hlt in H. apply lookup_lt_is_Some_1 in H. lia.
  - assert (Hs : is_Some (l !! n)) by (apply lookup_lt_is_Some_2; assumption).
    rewrite Hge in Hs by lia. destruct Hs as [? Hs]. discriminate.
Qed.

(** X10. The array is sized from the request, not from the rectangle that
    is returned. [Array::New] gets [length * 4] with [length = width * height],
    both of them [int] products: the array has that many slots (none when
    the number is negative), or the [4 * W * H] entries of the returned
    rectangle when these are more, and every slot past the entries is a
    hole. For a request of at least 0 by 0 with [4 * width * height] an [int]
    these are [4 * width * height] slots, never fewer than the entries. *)
Theorem get_data_array_length words stride cWidth cHeight sx sy width height :
  surface_ok words stride cWidth cHeight ->
  request_ok sx sy width height ->
  exists im,
    image_surface_get_data words stride cWidth cHeight sx sy width height = Some im
    /\ let entries := 4 * (Z.max (im_height im) 0 * Z.max (im_width im) 0) in
       let slots := Z.max 0 (to_int (to_int (width * height) * 4)) in
       Z.of_nat (length (im_data im)) = Z.max slots entries
       /\ (forall j, entries <= Z.of_nat j < slots -> im_data im !! j = Some None)
       /\ (0 <= width -> 0 <= height -> 4 * width * height <= INT_MAX ->
           slots = 4 * width * height /\ entries <= slots).
Proof.
  intros Hok Hreq.
  destruct (image_surface_get_data_ok words stride cWidth cHeight sx sy width height
              Hok Hreq) as (st & Hrun & Hinv).
  eexists. split; [exact Hrun |]. simpl.
  set (W := clip_extent sx width cWidth) in *.
  set (H := clip_extent sy height cHeight) in *.
  set (n := to_int (to_int (width * height) * 4)) in *.
  assert (Hrest : forall j, (Z.to_nat (4 * (Z.max H 0 * Z.max W 0)) <= j)%nat ->
                    st.1 !! j = if decide (j < Z.to_nat n)%nat
                                then Some None else None).
  { intros j Hj. rewrite (gi_rest _ _ _ _ Hinv) by assumption.
    unfold array_new. destruct (decide (j < Z.to_nat n)%nat).
    - apply lookup_replicate_2. assumption.
    - apply lookup_ge_None_2. rewrite length_replicate. lia. }
  split; [| split].
  - rewrite (length_by_lookup st.1
               (Z.to_nat (Z.max (Z.max 0 n) (4 * (Z.max H 0 * Z.max W 0)))));
      [lia | |].
    + intros j Hj.
      destruct (decide (j < Z.to_nat (4 * (Z.max H 0 * Z.max W 0)))%nat).
      * rewrite (gi_set _ _ _ _ Hinv) by assumption. eauto.
      * rewrite Hrest by lia.
        destruct (decide (j < Z.to_nat n)%nat); [eauto | lia].
    + intros j Hj. rewrite Hrest by lia.
      destruct (decide (j < Z.to_nat n)%nat); [lia | reflexivity].
  - intros j Hj. rewrite Hrest by lia.
    destruct (decide (j < Z.to_nat n)%nat); [reflexivity | lia].
  - intros Hw Hh Hsz. subst n. unfold INT_MAX in Hsz.
    assert (HW : Z.max W 0 <= width) by (subst W; unfold clip_extent; lia).
    assert (HH : Z.max H 0 <= height) by (subst H; unfold clip_extent; lia).
    assert (Hn : 0 <= Z.max H 0 * Z.max W 0 <= width * height) by nia.
    rewrite (to_int_small (width * height)) by (unfold INT_MAX; nia).
    rewrite (to_int_small (width * height * 4)) by (unfold INT_MAX; lia).
    lia.
Qed.

(** ** The entries of a pixel *)

Lemma opaque_check :
  all_between (fun c => unpremultiply c (alpha_of 255) =? c) 0 (Z.to_nat 256) = true.
Proof. vm_compute. reflexivity. Qed.

Lemma premultiplied_check :
  all_between
    (fun a =>
       let alpha := alpha_of a in
       all_between
         (fun c =>
            let v := unpremultiply c alpha in
            (0 <=? v) && ((v =? 255 * c / a) || (v =? 255 * c / a - 1)))
         0 (Z.to_nat (a + 1)))
    1 (Z.to_nat 255) = true.
Proof. vm_compute. reflexivity. Qed.

Lemma uint8_range z : 0 <= uint8 z < 256.
Proof. unfold uint8. apply Z.mod_pos_bound. lia. Qed.

Lemma pixel_entry_opaque pixel k :
  0 <= k < 4 -> uint8 (Z.shiftr pixel 24) = 255 ->
  pixel_entry pixel k = uint8 (Z.shiftr pixel (if k =? 3 then 24 else 16 - 8 * k)).
Proof.
  intros Hk Ha. unfold pixel_entry. rewrite Ha.
  destruct (Z.eqb_spec k 3); [symmetry; assumption |].
  apply Z.eqb_eq.
  apply (all_between_spec _ _ _ opaque_check).
  pose proof (uint8_range (Z.shiftr pixel (16 - 8 * k))). lia.
Qed.

Lemma pixel_entry_premultiplied pixel k :
  0 <= k < 3 ->
  let a := uint8 (Z.shiftr pixel 24) in
  let c := uint8 (Z.shiftr pixel (16 - 8 * k)) in
  1 <= a -> c <= a ->
  0 <= pixel_entry pixel k <= 255
  /\ (pixel_entry pixel k = 255 * c / a \/ pixel_entry pixel k = 255 * c / a - 1).
Proof.
  intros Hk a c Ha Hc. unfold pixel_entry. fold a. fold c.
  destruct (Z.eqb_spec k 3); [lia |].
  pose proof (uint8_range (Z.shiftr pixel 24)) as Har. fold a in Har.
  pose proof (uint8_range (Z.shiftr pixel (16 - 8 * k))) as Hcr. fold c in Hcr.
  pose proof (all_between_spec _ _ _ premultiplied_check a ltac:(lia)) as Hrow.
  cbv beta zeta in Hrow.
  pose proof (all_between_spec _ _ _ Hrow c ltac:(lia)) as Hcell.
  cbv beta zeta in Hcell.
  apply andb_true_iff in Hcell as [H0 Hq].
  apply orb_true_iff in Hq.
  assert (255 * c / a <= 255).
  { apply Z.div_le_upper_bound; nia. }
  split; [lia |].
  destruct Hq as [Hq | Hq]; [left | right]; lia.
Qed.

(** X11. An opaque pixel is returned as it is: when the alpha byte of a
    pixel of the returned rectangle is 255, its four entries are its red,
    green and blue bytes and 255. *)
Theorem get_data_opaque_pixel words stride cWidth cHeight sx sy width height :
  surface_ok words stride cWidth cHeight ->
  request_ok sx sy width height ->
  exists im,
    image_surface_get_data words stride cWidth cHeight sx sy width height = Some im
    /\ forall x y,
         0 <= x < im_width im -> 0 <= y < im_height im ->
         let pixel := pixel_at words stride (Z.max sx 0 + x) (Z.max sy 0 + y) in
         let at_ k := im_data im !! Z.to_nat (4 * (y * im_width im + x) + k) in
         Z.shiftr pixel 24 mod 256 = 255 ->
         at_ 0 = Some (Some (Z.shiftr pixel 16 mod 256))
         /\ at_ 1 = Some (Some (Z.shiftr pixel 8 mod 256))
         /\ at_ 2 = Some (Some (pixel mod 256))
         /\ at_ 3 = Some (Some 255).
Proof.
  intros Hok Hreq.
  destruct (get_data_entry_lookup words stride cWidth cHeight sx sy width height
              Hok Hreq) as (im & Hrun & Hentry).
  exists im. split; [assumption |].
  intros x y Hx Hy pixel at_ Ha. subst at_. cbv beta.
  rewrite !Hentry by (assumption || lia). fold pixel.
  rewrite !pixel_entry_opaque by (assumption || lia).
  simpl. unfold uint8. rewrite Ha. repeat split.
Qed.

(** X12. A premultiplied pixel that is not fully transparent gives colour
    entries in 0..255: when the alpha byte [a] is at least 1 and a colour
    byte [c] is at most [a], the entry is [255 c / a] rounded down, or one
    less. *)
Theorem get_data_premultiplied_pixel words stride cWidth cHeight sx sy width height :
  surface_ok words stride cWidth cHeight ->
  request_ok sx sy width height ->
  exists im,
    image_surface_get_data words stride cWidth cHeight sx sy width height = Some im
    /\ forall x y k,
         0 <= x < im_width im -> 0 <= y < im_height im -> 0 <= k < 3 ->
         let pixel := pixel_at words stride (Z.max sx 0 + x) (Z.max sy 0 + y) in
         let a := Z.shiftr pixel 24 mod 256 in
         let c := Z.shiftr pixel (16 - 8 * k) mod 256 in
         1 <= a -> c <= a ->
         exists v,
           im_data im !! Z.to_nat (4 * (y * im_width im + x) + k) = Some (Some v)
           /\ 0 <= v <= 255
           /\ (v = 255 * c / a \/ v = 255 * c / a - 1).
Proof.
  intros Hok Hreq.
  destruct (get_data_entry_lookup words stride cWidth cHeight sx sy width height
              Hok Hreq) as (im & Hrun & Hentry).
  exists im. split; [assumption |].
  intros x y k Hx Hy Hk pixel a c Ha Hc.
  eexists. split; [apply Hentry; assumption || lia |].
  fold pixel. apply pixel_entry_premultiplied; assumption.
Qed.

(** X13. A fully transparent pixel (the word 0): its alpha entry is 0 and
    each of its three colour entries is the conversion to [int] of the NaN
    [0.f / 0.f], which the language leaves open: the three entries are what
    the target makes of it. *)
Theorem get_data_transparent_pixel words stride cWidth cHeight sx sy width height :
  surface_ok words stride cWidth cHeight ->
  request_ok sx sy width height ->
  exists im,
    image_surface_get_data words stride cWidth cHeight sx sy width height = Some im
    /\ forall x y k,
         0 <= x < im_width im -> 0 <= y < im_height im -> 0 <= k < 4 ->
         pixel_at words stride (Z.max sx 0 + x) (Z.max sy 0 + y) = 0 ->
         im_data im !! Z.to_nat (4 * (y * im_width im + x) + k)
         = Some (Some (if k =? 3 then 0 else to_int (unrepresentable S754_nan))).
Proof.
  intros Hok Hreq.
  destruct (get_data_entry_lookup words stride cWidth cHeight sx sy width height
              Hok Hreq) as (im & Hrun & Hentry).
  exists im. split; [assumption |].
  intros x y k Hx Hy Hk Hp.
  rewrite Hentry by assumption. rewrite Hp. do 2 f_equal.
  unfold pixel_entry. rewrite !Z.shiftr_0_l.
  destruct (Z.eqb_spec k 3); reflexivity.
Qed.


End Blur.


(** * The claims at sample inputs *)

Lemma channel_pass_bytes_witness :
  exists s',
    blur_channel cvttsd2si 5 5 (2 - 1) (mul (2 - 1)) 0 (start ramp 25) = Some s'
    /\ forall x y,
         2 - 1 <= x < 5 - (2 - 1) ->
         2 - 1 <= y < 5 - (2 - 1) ->
         let T := window_total (byte_at 5 (src (start ramp 25)) 0) 5 5 (2 - 1) x y in
         byte_at 5 (src s') 0 x y
         = uchar_of_double cvttsd2si
             (SFmul 53 1024 (double_of_int (to_int T)) (mul (2 - 1))).
Proof.
  apply (channel_pass_bytes cvttsd2si 5 5 2 0 (start ramp 25)).
  - apply well_formedb_true. reflexivity.
  - reflexivity.
  - lia.
  - lia.
Defined.

(** C1 as stated fails: on the uniform 11 x 11 surface of bytes 1, with a
    caller radius of 6, the window of the middle pixel has the total 100 and
    the area 100, so the truncated quotient is 1; the pass stores 0. *)
Lemma exact_average_counterexample :
  exists s',
    blur_channel cvttsd2si 11 11 (6 - 1) (mul (6 - 1)) 0 (start (uniform 1) 121)
    = Some s'
    /\ byte_at 11 (src s') 0 5 5 = 0
    /\ exact_average (6 - 1)
         (window_total (byte_at 11 (uniform 1) 0) 11 11 (6 - 1) 5 5) = 1.
Proof.
  eexists. split; [vm_compute; reflexivity |].
  split; vm_compute; reflexivity.
Qed.

(** At that radius the average of a full window of bytes [v] is [v - 1] for
    every [v] from 1 to 255. *)
Lemma average_of_uniform_window :
  forallb (fun v => average cvttsd2si 5 (v * (2 * 5) ^ 2) =? v - 1)
          (map Z.of_nat (seq 1 255)) = true.
Proof. vm_compute. reflexivity. Qed.

(** The test [n <= m] on numbers that are given. *)
Ltac evaluated := apply Z.leb_le; reflexivity.

(** A radius of 2 on the 5 x 5 surface (the border is one pixel wide), and a
    radius of 4, which leaves no inset. *)
Lemma border_unchanged_witness :
  (exists out,
     surface_blur cvttsd2si (fun _ => 7) 5 5 ramp 2 = Some out
     /\ forall x y c,
          0 <= x < 5 -> 0 <= y < 5 -> 0 <= c < 4 ->
          x < to_int 2 - 1 \/ 5 - (to_int 2 - 1) <= x
          \/ y < to_int 2 - 1 \/ 5 - (to_int 2 - 1) <= y ->
          out !! Z.to_nat (4 * (y * 5 + x) + c)
          = ramp !! Z.to_nat (4 * (y * 5 + x) + c))
  /\ surface_blur cvttsd2si (fun _ => 7) 5 5 ramp 4 = Some ramp.
Proof.
  split.
  - pose proof (border_unchanged cvttsd2si (fun _ => 7) 5 5 ramp 2) as H.
    cbv zeta in H. destruct H as (out & Hrun & Hborder & _).
    + apply well_formedb_true. reflexivity.
    + evaluated.
    + exists out. split; [exact Hrun | exact Hborder].
  - pose proof (border_unchanged cvttsd2si (fun _ => 7) 5 5 ramp 4) as H.
    cbv zeta in H. destruct H as (out & Hrun & _ & Hempty).
    + apply well_formedb_true. reflexivity.
    + evaluated.
    + rewrite Hrun. f_equal. apply Hempty. left. evaluated.
Defined.

(** C3 as stated fails for a radius that is not an [int]: with the caller
    radius 2^32 + 2 every pixel of the 5 x 5 surface has [x < radius - 1],
    yet the code runs with the radius 2 and rewrites the byte 24 of the pixel
    (1, 1). *)
Lemma border_counterexample :
  exists out,
    surface_blur cvttsd2si (fun _ => 7) 5 5 ramp (2 ^ 32 + 2) = Some out
    /\ 1 < 2 ^ 32 + 2 - 1
    /\ ramp !! Z.to_nat (4 * (1 * 5 + 1) + 0) = Some 24
    /\ out !! Z.to_nat (4 * (1 * 5 + 1) + 0) = Some 60.
Proof.
  eexists. split; [vm_compute; reflexivity |].
  split; [lia |]. split; reflexivity.
Qed.

Lemma passes_in_order_witness :
  let er := to_int 2 - 1 in
  let pass c bytes := box_pass cvttsd2si 3 3 er c bytes in
  let iteration bytes := pass 3 (pass 2 (pass 1 (pass 0 bytes))) in
  surface_blur_log cvttsd2si (fun _ => 7) 3 3 (map Z.of_nat (seq 0 36)) 2
  = Some (iteration (iteration (iteration (map Z.of_nat (seq 0 36)))),
          accesses cvttsd2si 3 3 er [0; 1; 2; 3; 0; 1; 2; 3; 0; 1; 2; 3]
            (map Z.of_nat (seq 0 36)))
  /\ surface_blur cvttsd2si (fun _ => 7) 3 3 (map Z.of_nat (seq 0 36)) 2
     = fst <$> surface_blur_log cvttsd2si (fun _ => 7) 3 3 (map Z.of_nat (seq 0 36)) 2.
Proof.
  apply (passes_in_order cvttsd2si (fun _ => 7) 3 3 (map Z.of_nat (seq 0 36)) 2).
  - apply well_formedb_true. reflexivity.
  - evaluated.
Defined.

(** The first accesses of that call, on a 3 x 3 surface with the bytes 0,
    1, .., 35: the nine reads of channel 0, the write of the one inset
    pixel, and then the reads of channel 1; the second iteration reads what
    the first has written. *)
Example first_accesses :
  (fun r => (take 12 r.2, r.2 !! 44%nat))
    <$> surface_blur_log cvttsd2si (fun _ => 7) 3 3 (map Z.of_nat (seq 0 36)) 2
  = Some ([Read 0 0; Read 4 4; Read 8 8; Read 12 12; Read 16 16; Read 20 20;
           Read 24 24; Read 28 28; Read 32 32; Write 16 24; Read 1 1; Read 5 5],
          Some (Read 16 24)).
Proof. vm_compute. reflexivity. Qed.

Lemma effective_radius_witness :
  let er := to_int (2 ^ 32 + 2) - 1 in
  surface_blur cvttsd2si (fun _ => 7) 5 5 ramp (2 ^ 32 + 2)
  = Some (box_blur cvttsd2si 5 5 er ramp)
  /\ forall c bytes x y,
       Z.of_nat (length bytes) = 5 * 4 * 5 ->
       0 <= c < 4 -> 0 <= x < 5 -> 0 <= y < 5 ->
       let S := prefix_sum (byte_at 5 bytes c) in
       let l := Z.max 0 (x - er) in
       let t := Z.max 0 (y - er) in
       let r := Z.min (5 - 1) (x + er) in
       let b := Z.min (5 - 1) (y + er) in
       byte_at 5 (box_pass cvttsd2si 5 5 er c bytes) c x y
       = if (er <=? x) && (x <? 5 - er) && (er <=? y) && (y <? 5 - er)
         then uchar_of_double cvttsd2si
                (SFmul 53 1024
                   (double_of_int (to_int (S r b + S l t - S l b - S r t)))
                   (double_of_float
                      (SFdiv 24 128 (SFone 24 128)
                         (float_of_int (to_int (to_int (er * 2) * to_int (er * 2)))))))
         else byte_at 5 bytes c x y.
Proof.
  apply (effective_radius cvttsd2si (fun _ => 7) 5 5 ramp (2 ^ 32 + 2)).
  - apply well_formedb_true. reflexivity.
  - evaluated.
Defined.

(** C5 as stated fails for a radius that is not an [int]: with the caller
    radius 2^32 + 2 the call is the blur of effective radius 1, as for the
    radius 2, and not that of effective radius 2^32 + 1, which would leave
    the 5 x 5 surface as it is. *)
Lemma effective_radius_counterexample :
  surface_blur cvttsd2si (fun _ => 7) 5 5 ramp (2 ^ 32 + 2)
  = Some (box_blur cvttsd2si 5 5 1 ramp)
  /\ box_blur cvttsd2si 5 5 (2 ^ 32 + 2 - 1) ramp = ramp
  /\ box_blur cvttsd2si 5 5 1 ramp <> box_blur cvttsd2si 5 5 (2 ^ 32 + 2 - 1) ramp.
Proof.
  split; [vm_compute; reflexivity |].
  split; [vm_compute; reflexivity |].
  vm_compute. discriminate.
Qed.

Lemma no_access_out_of_bounds_witness :
  exists out,
    surface_blur cvttsd2si (fun _ => 7) 5 5 ramp 3 = Some out
    /\ length out = length ramp.
Proof.
  apply (no_access_out_of_bounds cvttsd2si (fun _ => 7) 5 5 ramp 3).
  - apply well_formedb_true. reflexivity.
  - evaluated.
Defined.

(** C6 as stated fails for a radius that is not an [int]: the caller radius
    2^32 is at least 1, the code runs with the radius 0, and the first read
    of the blur step, at the index [-2 + -2 * 5] of the table, is out of
    bounds. *)
Lemma out_of_bounds_counterexample :
  1 <= 2 ^ 32
  /\ to_int (to_int (2 ^ 32) - 1) = -1
  /\ load (repeat 0 25) ((-1 + -1) + (-1 + -1) * 5) = None
  /\ surface_blur cvttsd2si (fun _ => 7) 5 5 ramp (2 ^ 32) = None.
Proof.
  split; [lia |]. split; [reflexivity |]. split; [reflexivity |].
  vm_compute. reflexivity.
Qed.

Lemma deterministic_witness :
  exists out,
    surface_blur cvttsd2si (fun _ => 7) 5 5 ramp 2 = Some out
    /\ surface_blur cvttsd2si (fun i => Z.of_nat i) 5 5 ramp 2 = Some out.
Proof.
  apply (deterministic cvttsd2si (fun _ => 7) (fun i => Z.of_nat i) 5 5 ramp ramp 2).
  - apply well_formedb_true. reflexivity.
  - evaluated.
  - reflexivity.
Defined.

(** C7 as stated fails for a radius that is not an [int]: with the caller
    radius 2^33 the code runs with the radius 0, and neither of two runs on
    the same bytes has a result: both read the table at a negative index,
    where the memory holds what is not an input of the call. *)
Lemma undetermined_counterexample :
  surface_blur cvttsd2si (fun _ => 7) 5 5 ramp (2 ^ 33) = None
  /\ surface_blur cvttsd2si (fun i => Z.of_nat i) 5 5 ramp (2 ^ 33) = None.
Proof. split; vm_compute; reflexivity. Qed.

Lemma inset_windows_are_full_witness :
  let er := 2 - 1 in
  let v := byte_at 5 (src (start ramp 25)) 0 in
  exists s',
    blur_channel cvttsd2si 5 5 er (mul er) 0 (start ramp 25) = Some s'
    /\ forall x y,
         er <= x < 5 - er -> er <= y < 5 - er ->
         (if x <? er then 0 else x - er) = x - er
         /\ (if y <? er then 0 else y - er) = y - er
         /\ (if 5 <=? x + er then 5 - 1 else x + er) = x + er
         /\ (if 5 <=? y + er then 5 - 1 else y + er) = y + er
         /\ window_total v 5 5 er x y
            = rect_sum v (x - er + 1) (x + er) (y - er + 1) (y + er)
         /\ byte_at 5 (src s') 0 x y
            = average cvttsd2si er
                (rect_sum v (x - er + 1) (x + er) (y - er + 1) (y + er)).
Proof.
  apply (inset_windows_are_full cvttsd2si 5 5 2 0 (start ramp 25)).
  - apply well_formedb_true. reflexivity.
  - reflexivity.
  - lia.
  - lia.
Defined.

(** C9 as stated fails in its last part: on the uniform 11 x 11 surface of
    bytes 255, with a caller radius of 6, the window of the middle pixel is
    full (100 pixels, total 25500) and its truncated mean is 255; the pass
    stores 254. *)
Lemma truncated_mean_counterexample :
  exists s',
    blur_channel cvttsd2si 11 11 (6 - 1) (mul (6 - 1)) 2 (start (uniform 255) 121)
    = Some s'
    /\ byte_at 11 (src s') 2 5 5 = 254
    /\ exact_average (6 - 1)
         (rect_sum (byte_at 11 (uniform 255) 2)
            (5 - (6 - 1) + 1) (5 + (6 - 1)) (5 - (6 - 1) + 1) (5 + (6 - 1))) = 255.
Proof.
  eexists. split; [vm_compute; reflexivity |].
  split; vm_compute; reflexivity.
Qed.



Lemma prefix_sums_modulo_witness :
  let v := byte_at 5 (src (start ramp 25)) 1 in
  exists s',
    precompute 5 5 1 (start ramp 25) = Some s'
    /\ (forall x y,
          0 <= x < 5 -> 0 <= y < 5 ->
          precalc s' !! Z.to_nat (x + y * 5) = Some (prefix_sum v x y mod 2 ^ 32))
    /\ (forall l t r b,
          0 <= l <= r -> r < 5 -> 0 <= t <= b -> b < 5 ->
          rect_sum v (l + 1) r (t + 1) b < 2 ^ 31 ->
          window_tot (precalc s') 5 l t r b
          = Some (rect_sum v (l + 1) r (t + 1) b)).
Proof.
  apply (prefix_sums_modulo 5 5 1 (start ramp 25)).
  - apply well_formedb_true. reflexivity.
  - reflexivity.
  - lia.
Defined.

(** * The further properties at sample inputs *)

Ltac below5 x :=
  let H := fresh in
  assert (H : x = 0 \/ x = 1 \/ x = 2 \/ x = 3 \/ x = 4) by lia;
  destruct H as [-> | [-> | [-> | [-> | ->]]]].

Lemma blur_keeps_well_formed_witness :
  exists out,
    surface_blur cvttsd2si (fun _ => 7) 5 5 ramp 3 = Some out
    /\ well_formed 5 5 out.
Proof.
  apply (blur_keeps_well_formed cvttsd2si (fun _ => 7) 5 5 ramp 3).
  - apply well_formedb_true. reflexivity.
  - evaluated.
Defined.

Lemma channels_are_independent_witness :
  exists out1 out2,
    surface_blur cvttsd2si (fun _ => 7) 5 5 ramp 2 = Some out1
    /\ surface_blur cvttsd2si (fun _ => 9) 5 5 ramp_channel0 2 = Some out2
    /\ same_channel 5 5 0 out1 out2.
Proof.
  apply (channels_are_independent cvttsd2si (fun _ => 7) (fun _ => 9) 5 5
           ramp ramp_channel0 2 0).
  - apply well_formedb_true. reflexivity.
  - apply well_formedb_true. reflexivity.
  - evaluated.
  - lia.
  - intros x y Hx Hy. below5 x; below5 y; reflexivity.
Defined.

Lemma nonpositive_radius_faults_witness :
  surface_blur cvttsd2si (fun _ => 7) 5 5 ramp 0 = None.
Proof.
  apply (nonpositive_radius_faults cvttsd2si (fun _ => 7) 5 5 ramp 0).
  - apply well_formedb_true. reflexivity.
  - evaluated.
  - evaluated.
Defined.

Lemma zero_channel_stays_zero_witness :
  exists out,
    surface_blur cvttsd2si (fun _ => 7) 5 5 ramp_transparent 2 = Some out
    /\ forall x y, 0 <= x < 5 -> 0 <= y < 5 -> byte_at 5 out 3 x y = 0.
Proof.
  apply (zero_channel_stays_zero cvttsd2si (fun _ => 7) 5 5 ramp_transparent 2 3).
  - apply well_formedb_true. reflexivity.
  - evaluated.
  - lia.
  - intros x y Hx Hy. below5 x; below5 y; reflexivity.
Defined.

Lemma radius_one_flattens_witness :
  exists out,
    surface_blur cvttsd2si (fun _ => 7) 5 5 ramp 1 = Some out
    /\ length out = length ramp
    /\ forall i b, out !! i = Some b -> b = cvttsd2si S754_nan mod 256.
Proof.
  apply (radius_one_flattens cvttsd2si (fun _ => 7) 5 5 ramp).
  apply well_formedb_true. reflexivity.
Defined.

Lemma small_radius_mean_is_exact_witness :
  let er := 2 - 1 in
  let v := byte_at 5 (src (start ramp 25)) 0 in
  exists s',
    blur_channel cvttsd2si 5 5 er (mul er) 0 (start ramp 25) = Some s'
    /\ forall x y,
         er <= x < 5 - er -> er <= y < 5 - er ->
         byte_at 5 (src s') 0 x y
         = rect_sum v (x - er + 1) (x + er) (y - er + 1) (y + er) / (2 * er) ^ 2.
Proof.
  apply (small_radius_mean_is_exact cvttsd2si 5 5 2 0 (start ramp 25)).
  - apply well_formedb_true. reflexivity.
  - reflexivity.
  - lia.
  - lia.
Defined.

Lemma uniform_is_fixed_at_small_radius_witness :
  surface_blur cvttsd2si (fun _ => 7) 11 11 (uniform 200) 5 = Some (uniform 200).
Proof.
  apply (uniform_is_fixed_at_small_radius cvttsd2si (fun _ => 7) 11 11
           (uniform 200) 200 5).
  - apply well_formedb_true. reflexivity.
  - intros i b Hb. apply list_elem_of_lookup_2, list_elem_of_In in Hb.
    exact (repeat_spec _ _ _ Hb).
  - lia.
Defined.

Ltac sample_surface :=
  first [ constructor; try reflexivity; unfold INT_MAX; lia
        | unfold request_ok; lia ].



Lemma get_data_array_length_witness :
  exists im,
    image_surface_get_data cvttsd2si four_pixels 8 2 2 (-1) 0 4 2 = Some im
    /\ let entries := 4 * (Z.max (im_height im) 0 * Z.max (im_width im) 0) in
       let slots := Z.max 0 (to_int (to_int (4 * 2) * 4)) in
       Z.of_nat (length (im_data im)) = Z.max slots entries
       /\ (forall j, entries <= Z.of_nat j < slots -> im_data im !! j = Some None)
       /\ (0 <= 4 -> 0 <= 2 -> 4 * 4 * 2 <= INT_MAX ->
           slots = 4 * 4 * 2 /\ entries <= slots).
Proof.
  apply (get_data_array_length cvttsd2si four_pixels 8 2 2 (-1) 0 4 2); sample_surface.
Defined.

(** A request of 46341 x 46341 pixels, whose product is not an [int]: the
    array has the 18532 slots of the wrapped product. *)
Example get_data_wrapped_length :
  (fun im => (Z.of_nat (length (im_data im)), im_width im, im_height im))
    <$> image_surface_get_data cvttsd2si four_pixels 8 2 2 0 0 46341 46341
  = Some (18532, 2, 2).
Proof. vm_compute. reflexivity. Qed.

Lemma get_data_opaque_pixel_witness :
  exists im,
    image_surface_get_data cvttsd2si four_pixels 8 2 2 (-1) 0 4 2 = Some im
    /\ forall x y,
         0 <= x < im_width im -> 0 <= y < im_height im ->
         let pixel := pixel_at four_pixels 8 (Z.max (-1) 0 + x) (Z.max 0 0 + y) in
         let at_ k := im_data im !! Z.to_nat (4 * (y * im_width im + x) + k) in
         Z.shiftr pixel 24 mod 256 = 255 ->
         at_ 0 = Some (Some (Z.shiftr pixel 16 mod 256))
         /\ at_ 1 = Some (Some (Z.shiftr pixel 8 mod 256))
         /\ at_ 2 = Some (Some (pixel mod 256))
         /\ at_ 3 = Some (Some 255).
Proof.
  apply (get_data_opaque_pixel cvttsd2si four_pixels 8 2 2 (-1) 0 4 2); sample_surface.
Defined.

Lemma get_data_premultiplied_pixel_witness :
  exists im,
    image_surface_get_data cvttsd2si four_pixels 8 2 2 (-1) 0 4 2 = Some im
    /\ forall x y k,
         0 <= x < im_width im -> 0 <= y < im_height im -> 0 <= k < 3 ->
         let pixel := pixel_at four_pixels 8 (Z.max (-1) 0 + x) (Z.max 0 0 + y) in
         let a := Z.shiftr pixel 24 mod 256 in
         let c := Z.shiftr pixel (16 - 8 * k) mod 256 in
         1 <= a -> c <= a ->
         exists v,
           im_data im !! Z.to_nat (4 * (y * im_width im + x) + k) = Some (Some v)
           /\ 0 <= v <= 255
           /\ (v = 255 * c / a \/ v = 255 * c / a - 1).
Proof.
  apply (get_data_premultiplied_pixel cvttsd2si four_pixels 8 2 2 (-1) 0 4 2); sample_surface.
Defined.

Lemma get_data_transparent_pixel_witness :
  exists im,
    image_surface_get_data cvttsd2si four_pixels 8 2 2 (-1) 0 4 2 = Some im
    /\ forall x y k,
         0 <= x < im_width im -> 0 <= y < im_height im -> 0 <= k < 4 ->
         pixel_at four_pixels 8 (Z.max (-1) 0 + x) (Z.max 0 0 + y) = 0 ->
         im_data im !! Z.to_nat (4 * (y * im_width im + x) + k)
         = Some (Some (if k =? 3 then 0 else to_int (cvttsd2si S754_nan))).
Proof.
  apply (get_data_transparent_pixel cvttsd2si four_pixels 8 2 2 (-1) 0 4 2); sample_surface.
Defined.


(** The call on [four_pixels], as compiled for x86-64: the request reaches
    one column to the left of the surface and two to the right, the array
    has the 32 slots of the request and 16 entries. *)
Example get_data_four_pixels :
  image_surface_get_data cvttsd2si four_pixels 8 2 2 (-1) 0 4 2
  = Some {| im_data :=
              map Some [16; 32; 48; 255; 127; 63; 31; 128;
                        -2147483648; -2147483648; -2147483648; 0; 254; 254; 254; 1]
              ++ replicate 16 None;
            im_width := 2; im_height := 2 |}.
Proof. vm_compute. reflexivity. Qed.
